(** * az_da_cost_management: subscription resolver and monthly cost pull

    A shallow embedding of the two scripts of the repository,

    - [preparation/build_subscriptions_yaml.py] (module [Preparation]) and
    - [pull_monthly/rg_monthly_costs.py] (module [PullMonthly]),

    with the properties their specification states about them.

    Conventions of the embedding.

    - Python [str] is [string]; the text is taken to be ASCII, so
      [str.lower] maps [A-Z] to [a-z] and [str.strip] removes the ASCII
      characters for which [str.isspace] holds.
    - A [dict] is a [gmap], a [set] a [gset]; [print(..., file=sys.stderr)]
      appends a line to an explicit [stderr] log.
    - A Python [float] is an exact rational ([Q]): the rounding error of
      the binary64 operations is not part of the model.
    - Calls into libraries (the Azure clients, [time.sleep],
      [random.uniform], [float(...)] on a header) are effects taken on
      their normal behaviour: the remote side is a script of outcomes,
      sleeping appends the duration to a log, random draws come from a
      given sequence. *)

From Stdlib Require Import Ascii String ZArith QArith Qround Lqa Lia.
From stdpp Require Import gmap strings list fin_maps sorting.

(** ** Python string operations *)

Module PyStr.

Definition lower_ascii (c : ascii) : ascii :=
  let n := N_of_ascii c in
  if ((65 <=? n) && (n <=? 90))%N then ascii_of_N (n + 32) else c.

(** [str.lower] *)
Fixpoint lower (s : string) : string :=
  match s with
  | EmptyString => EmptyString
  | String c s' => String (lower_ascii c) (lower s')
  end.

(** [str.isspace] on one ASCII character: TAB, LF, VT, FF, CR, the four
    separators FS, GS, RS, US and the space. *)
Definition is_space (c : ascii) : bool :=
  let n := N_of_ascii c in
  (((9 <=? n) && (n <=? 13)) || ((28 <=? n) && (n <=? 32)))%N.

Fixpoint lstrip (s : string) : string :=
  match s with
  | EmptyString => EmptyString
  | String c s' => if is_space c then lstrip s' else s
  end.

Fixpoint rstrip (s : string) : string :=
  match s with
  | EmptyString => EmptyString
  | String c s' =>
      match rstrip s' with
      | EmptyString => if is_space c then EmptyString else String c EmptyString
      | r => String c r
      end
  end.

(** [str.strip] *)
Definition strip (s : string) : string := rstrip (lstrip s).

(** Truthiness of a string value that may be [None]: [None] and the empty
    string are false. *)
Definition truthy (o : option string) : bool :=
  match o with
  | Some (String _ _) => true
  | _ => false
  end.

(** [x or ""] *)
Definition or_empty (o : option string) : string := default "" o.

End PyStr.

(** ** preparation/build_subscriptions_yaml.py *)

Module Preparation.
Import PyStr.

(** *** GUID_RE *)

Definition is_hex (c : ascii) : bool :=
  let n := N_of_ascii c in
  (((48 <=? n) && (n <=? 57)) || ((97 <=? n) && (n <=? 102))
   || ((65 <=? n) && (n <=? 70)))%N.

(** [[0-9a-fA-F]{n}] at the head of [s]: the rest of the string when the
    first [n] characters are hexadecimal digits. *)
Fixpoint hex_group (n : nat) (s : string) : option string :=
  match n with
  | O => Some s
  | S n' =>
      match s with
      | String c s' => if is_hex c then hex_group n' s' else None
      | EmptyString => None
      end
  end.

(** A literal [-]. *)
Definition dash (s : string) : option string :=
  match s with
  | String "-" s' => Some s'
  | _ => None
  end.

(** [$] outside MULTILINE mode: the end of the string, or just before a
    newline that ends the string. *)
Definition at_dollar (s : string) : bool :=
  match s with
  | EmptyString => true
  | String "010" EmptyString => true
  | _ => false
  end.

(** [GUID_RE.match(s)] as a truth value. *)
Definition GUID_RE_match (s : string) : bool :=
  let group (n : nat) (o : option string) := o ≫= hex_group n in
  let sep (o : option string) := o ≫= dash in
  match group 12 (sep (group 4 (sep (group 4 (sep (group 4
          (sep (group 8 (Some s))))))))) with
  | Some rest => at_dollar rest
  | None => false
  end.

(** *** build_subscription_index *)

(** One item of [client.subscriptions.list()]; either attribute may be
    [None]. *)
Record Subscription := {
  display_name : option string;
  subscription_id : option string
}.

(** The local variables of [build_subscription_index], and what it has
    printed to [sys.stderr]. *)
Record index_state := {
  name_to_id : gmap string string;
  id_to_name : gmap string string;
  seen_names : gset string;
  stderr : list string
}.

Definition no_subscriptions_msg : string :=
  "No subscriptions visible for the signed-in account.".

Definition duplicate_warning (display : string) : string :=
  "Warning: duplicate subscription display name detected: '" +:+ display
  +:+ "'. Matching by name may be ambiguous.".

(** [(s.display_name or "").strip()], [(s.subscription_id or "").strip()]
    and [display.lower()]. *)
Definition entry_display (s : Subscription) : string :=
  strip (or_empty (display_name s)).
Definition entry_sid (s : Subscription) : string :=
  strip (or_empty (subscription_id s)).
Definition entry_key (s : Subscription) : string :=
  lower (entry_display s).

(** The body of [for s in subs]. *)
Definition index_step (st : index_state) (s : Subscription) : index_state :=
  let display := entry_display s in
  let sid := entry_sid s in
  if decide (sid = "") then st
  else
    let id_to_name' := <[sid := display]> (id_to_name st) in
    let key := entry_key s in
    if decide (key ∈ seen_names st) then
      {| name_to_id := name_to_id st;
         id_to_name := id_to_name';
         seen_names := seen_names st;
         stderr := stderr st ++ [duplicate_warning display] |}
    else
      {| name_to_id :=
           match name_to_id st !! key with
           | None => <[key := sid]> (name_to_id st)
           | Some _ => name_to_id st
           end;
         id_to_name := id_to_name';
         seen_names := {[key]} ∪ seen_names st;
         stderr := stderr st |}.

(** The state when the loop is entered. *)
Definition index_init (subs : list Subscription) : index_state :=
  {| name_to_id := ∅;
     id_to_name := ∅;
     seen_names := ∅;
     stderr := match subs with [] => [no_subscriptions_msg] | _ => [] end |}.

(** [build_subscription_index], with [subs] the listing the client
    returned: the final state holds the two dictionaries returned and the
    lines printed. *)
Definition build_subscription_index (subs : list Subscription) : index_state :=
  fold_left index_step subs (index_init subs).

(** *** resolve_subscription_id *)

Definition not_found_warning (sub_input : string) : string :=
  "Warning: could not find subscription by name '" +:+ sub_input
  +:+ "'. Make sure your signed-in account has access.".

(** The value returned ([None] for Python's [None]) and the lines
    printed to [sys.stderr]. *)
Definition resolve_subscription_id (sub_input : string)
    (name_to_id id_to_name : gmap string string)
  : option string * list string :=
  if GUID_RE_match sub_input then (Some sub_input, [])
  else
    let key := lower sub_input in
    let sid := name_to_id !! key in
    if truthy sid then (sid, [])
    else (None, [not_found_warning sub_input]).

(** *** The aggregation loop of main *)

(** [agg_rgs], [agg_name] and the lines printed while folding the rows. *)
Record agg_state := {
  agg_rgs : gmap string (gset string);
  agg_name : gmap string string;
  agg_stderr : list string
}.

Definition agg_init : agg_state :=
  {| agg_rgs := ∅; agg_name := ∅; agg_stderr := [] |}.

(** [d.setdefault(k, v)] *)
Definition setdefault (k v : string) (d : gmap string string)
  : gmap string string :=
  match d !! k with
  | Some _ => d
  | None => <[k := v]> d
  end.

(** [agg_rgs[sid].add(rg)] on a [defaultdict(set)]. *)
Definition add_rg (sid rg : string) (d : gmap string (gset string))
  : gmap string (gset string) :=
  <[sid := {[rg]} ∪ default ∅ (d !! sid)]> d.

(** The body of [for sub_raw, rg in rows]. *)
Definition agg_step (n2i i2n : gmap string string)
    (st : agg_state) (row : string * string) : agg_state :=
  let '(sub_raw, rg) := row in
  let '(sid, printed) := resolve_subscription_id sub_raw n2i i2n in
  match sid with
  | Some sid =>
      if truthy (Some sid) then
        let chosen_name := i2n !! sid in
        let chosen_name :=
          if negb (truthy chosen_name) && negb (GUID_RE_match sub_raw)
          then Some (strip sub_raw) else chosen_name in
        {| agg_rgs := add_rg sid rg (agg_rgs st);
           agg_name :=
             if truthy chosen_name
             then setdefault sid (or_empty chosen_name) (agg_name st)
             else agg_name st;
           agg_stderr := agg_stderr st ++ printed |}
      else
        {| agg_rgs := agg_rgs st; agg_name := agg_name st;
           agg_stderr := agg_stderr st ++ printed |}
  | None =>
      {| agg_rgs := agg_rgs st; agg_name := agg_name st;
         agg_stderr := agg_stderr st ++ printed |}
  end.

Definition aggregate (n2i i2n : gmap string string)
    (rows : list (string * string)) : agg_state :=
  fold_left (agg_step n2i i2n) rows agg_init.

(** The folded rows of one subscription. *)
Record ResolvedTarget := {
  target_id : string;
  resource_groups : gset string
}.

Definition resolved_target (st : agg_state) (sid : string)
  : option ResolvedTarget :=
  (λ rgs, {| target_id := sid; resource_groups := rgs |}) <$> agg_rgs st !! sid.

(** The aggregation property in the words of the specification: two rows
    whose tokens resolve to the same subscription and whose resource
    groups differ only in casing fold into a target with exactly one
    resource group. *)
Definition folds_to_one_group (n2i i2n : gmap string string)
    (row1 row2 : string * string) : Prop :=
  ∀ sid,
    (resolve_subscription_id row1.1 n2i i2n).1 = Some sid →
    (resolve_subscription_id row2.1 n2i i2n).1 = Some sid →
    lower row1.2 = lower row2.2 →
    ∃ tgt, resolved_target (aggregate n2i i2n [row1; row2]) sid = Some tgt
           ∧ size (resource_groups tgt) = 1.

(** *** Data of the worked examples *)

(** The shape the regular expression describes: five groups of 8, 4, 4, 4
    and 12 hexadecimal digits, joined by dashes. *)
Definition hex_string (n : nat) (s : string) : Prop :=
  String.length s = n ∧ Forall (λ c, is_hex c = true) (list_ascii_of_string s).

Definition guid_shape (s : string) : Prop :=
  ∃ g1 g2 g3 g4 g5,
    hex_string 8 g1 ∧ hex_string 4 g2 ∧ hex_string 4 g3 ∧ hex_string 4 g4
    ∧ hex_string 12 g5
    ∧ s = g1 +:+ "-" +:+ g2 +:+ "-" +:+ g3 +:+ "-" +:+ g4 +:+ "-" +:+ g5.

Definition guid_1 : string := "11111111-1111-1111-1111-111111111111".
Definition guid_2 : string := "22222222-2222-2222-2222-222222222222".

(** The directory [{id: A, name: "X"}, {id: B, name: "X"}]. *)
Definition two_named_X : list Subscription :=
  [ {| display_name := Some "X"; subscription_id := Some "A" |};
    {| display_name := Some "X"; subscription_id := Some "B" |} ].

(** A directory with the one subscription "SubA". *)
Definition dir_SubA : list Subscription :=
  [ {| display_name := Some "SubA"; subscription_id := Some guid_2 |} ].

Definition rows_rg1_RG1 : list (string * string) :=
  [ ("SubA", "rg1"); ("SubA", "RG1") ].

End Preparation.

(** ** pull_monthly/rg_monthly_costs.py *)

Module PullMonthly.
Import PyStr.

Local Open Scope Q_scope.

(** *** Exceptions and results *)

(** [HttpResponseError] carries the status code (which the SDK leaves
    [None] when there was no response) and the response headers;
    [RuntimeError] is what the script raises itself; [OtherError] stands
    for every other exception class, named by its class. *)
Inductive exn :=
| HttpResponseError (status_code : option Z) (headers : gmap string string)
| RuntimeError (msg : string)
| OtherError (class : string).

(** How a call ends: it returns a value or raises. *)
Inductive completion (A : Type) :=
| Returned (a : A)
| Raised (e : exn).
Arguments Returned {A} a.
Arguments Raised {A} e.

(** One cell of a result row: JSON null, a number or a string. *)
Inductive cell :=
| CNull
| CNum (q : Q)
| CStr (s : string).

(** What [query.usage] returns: the columns (each with its name, if it
    has one) and the rows, whether the script finds them in [resp.rows]
    and [resp.columns] or under [resp.properties]. *)
Record Response := {
  columns : list (option string);
  rows : list (list cell)
}.

(** The effects of a run that the properties speak about: how many remote
    calls and random draws were made, and the durations passed to
    [time.sleep], in order. *)
Record world := {
  n_calls : nat;
  n_draws : nat;
  slept : list Q
}.

Definition world_init : world := {| n_calls := 0; n_draws := 0; slept := [] |}.

Definition RETRY_AFTER_KEYS : list string :=
  [ "Retry-After";
    "x-ms-ratelimit-microsoft.costmanagement-qpu-retry-after";
    "x-ms-ratelimit-microsoft.costmanagement-entity-retry-after";
    "x-ms-ratelimit-microsoft.costmanagement-tenant-retry-after";
    "x-ms-ratelimit-microsoft.costmanagement-client-retry-after";
    "x-ms-ratelimit-microsoft.consumption-retry-after" ].

(** [min(a, b)]: the first argument unless the second is smaller. *)
Definition pymin (a b : Q) : Q := if Qlt_le_dec b a then b else a.

(** [random.uniform(a, b)] is [a + (b - a) * random()]; [r] is the value
    [random()] returned. *)
Definition uniform (a b r : Q) : Q := a + (b - a) * r.

(** [round(x)] to an integer, ties to the even neighbour. *)
Definition round_half_even (x : Q) : Z :=
  let f := Qfloor x in
  match Qcompare (x - inject_Z f) (1 # 2) with
  | Lt => f
  | Gt => (f + 1)%Z
  | Eq => if Z.even f then f else (f + 1)%Z
  end.

(** [round(x, 2)] *)
Definition round2 (x : Q) : Q := Qred (round_half_even (x * 100) # 100).

(** [e.status_code in (429, 503)] *)
Definition is_transient (status_code : option Z) : bool :=
  match status_code with
  | Some c => (c =? 429)%Z || (c =? 503)%Z
  | None => false
  end.

(** *** Calendar *)

(** A naive [datetime], as [datetime.utcnow()] returns it. *)
Record datetime := {
  year : Z; month : Z; day : Z;
  hour : Z; minute : Z; second : Z; microsecond : Z
}.

Definition is_leap (y : Z) : bool :=
  ((y mod 4 =? 0) && (negb (y mod 100 =? 0) || (y mod 400 =? 0)))%Z.

Definition days_in_month (y m : Z) : Z :=
  (if m =? 2 then (if is_leap y then 29 else 28)
   else if (m =? 4) || (m =? 6) || (m =? 9) || (m =? 11) then 30
   else 31)%Z.

(** [now.replace(day=1, hour=0, minute=0, second=0, microsecond=0)] *)
Definition replace_first_midnight (d : datetime) : datetime :=
  {| year := year d; month := month d; day := 1;
     hour := 0; minute := 0; second := 0; microsecond := 0 |}.

(** [d - timedelta(days=1)]; [OverflowError] before 0001-01-01. *)
Definition minus_one_day (d : datetime) : completion datetime :=
  if (1 <? day d)%Z then
    Returned {| year := year d; month := month d; day := (day d - 1)%Z;
                hour := hour d; minute := minute d; second := second d;
                microsecond := microsecond d |}
  else if (1 <? month d)%Z then
    Returned {| year := year d; month := (month d - 1)%Z;
                day := days_in_month (year d) (month d - 1);
                hour := hour d; minute := minute d; second := second d;
                microsecond := microsecond d |}
  else if (1 <? year d)%Z then
    Returned {| year := (year d - 1)%Z; month := 12; day := 31;
                hour := hour d; minute := minute d; second := second d;
                microsecond := microsecond d |}
  else Raised (OtherError "OverflowError").

Definition digit (n : Z) : ascii := ascii_of_N (48 + Z.to_N (n mod 10)).

(** The last [w] decimal digits of [n], zero padded: [%0wd] for a
    number of at most [w] digits. *)
Fixpoint zpad (w : nat) (n : Z) : string :=
  match w with
  | O => EmptyString
  | S w' => (zpad w' (n / 10) ++ String (digit n) EmptyString)%string
  end.

(** [d.isoformat()] of a naive datetime. *)
Definition isoformat (d : datetime) : string :=
  (zpad 4 (year d) ++ "-" ++ zpad 2 (month d) ++ "-" ++ zpad 2 (day d)
   ++ "T" ++ zpad 2 (hour d) ++ ":" ++ zpad 2 (minute d) ++ ":"
   ++ zpad 2 (second d)
   ++ (if (microsecond d =? 0)%Z then "" else "." ++ zpad 6 (microsecond d))
  )%string.

Definition previous_month_range (now_utc : datetime)
  : completion (string * string) :=
  let first_of_this_month := replace_first_midnight now_utc in
  let last_month_end := first_of_this_month in
  match minus_one_day last_month_end with
  | Raised e => Raised e
  | Returned prev_month_last_day =>
      let first_of_prev_month := replace_first_midnight prev_month_last_day in
      Returned ((isoformat first_of_prev_month ++ "Z")%string,
                (isoformat last_month_end ++ "Z")%string)
  end.

(** *** The resilient executor and the cost aggregator *)

Definition bind {A B : Type} (c : completion A) (f : A → completion B)
  : completion B :=
  match c with
  | Returned a => f a
  | Raised e => Raised e
  end.

#[global] Instance completion_bind : MBind completion :=
  λ A B f c, bind c f.
#[global] Instance completion_fmap : FMap completion :=
  λ A B f c, bind c (λ a, Returned (f a)).

(** The first index whose element satisfies [p]:
    [next(i for i, c in enumerate(l) if p(c))]. *)
Fixpoint first_index {A : Type} (p : A → bool) (l : list A) : option nat :=
  match l with
  | [] => None
  | x :: l' => if p x then Some O else S <$> first_index p l'
  end.

(** [(getattr(c, "name", None) or c.get("name")) in names] *)
Definition name_in (names : list string) (c : option string) : bool :=
  match c with
  | Some n => bool_decide (n ∈ names)
  | None => false
  end.

Definition no_rg_column_msg : string :=
  "Query did not return ResourceGroupName column; check permissions/scope.".
Definition no_cost_column_msg : string :=
  "Query did not return cost column; check aggregation name.".

Definition find_rg_idx (cols : list (option string)) : completion nat :=
  match first_index (name_in ["ResourceGroupName"; "ResourceGroup"]) cols with
  | Some i => Returned i
  | None => Raised (RuntimeError no_rg_column_msg)
  end.

Definition find_cost_idx (cols : list (option string)) : completion nat :=
  match first_index (name_in ["totalCost"; "PreTaxCost"]) cols with
  | Some i => Returned i
  | None =>
      match first_index (name_in ["totalCost"]) cols with
      | Some i => Returned i
      | None => Raised (RuntimeError no_cost_column_msg)
      end
  end.

(** [r[i]] *)
Definition index (r : list cell) (i : nat) : completion cell :=
  match r !! i with
  | Some c => Returned c
  | None => Raised (OtherError "IndexError")
  end.

Section Effects.

(** [float(v)] on a string: the number, or [None] when it raises. *)
Variable to_float : string → option Q.

(** The remote side: the outcome of the [n]-th call of [query.usage]
    of the run, given the scope and the time period asked for. *)
Variable usage : nat → string → string * string → completion Response.

(** The [n]-th value [random.random()] returns. *)
Variable random : nat → Q.

Fixpoint parse_keys (keys : list string) (headers : gmap string string)
  : option Q :=
  match keys with
  | [] => None
  | k :: keys' =>
      let v := headers !! k in
      if truthy v then to_float (or_empty v)
      else parse_keys keys' headers
  end.

Definition _parse_retry_after (headers : gmap string string) : option Q :=
  parse_keys RETRY_AFTER_KEYS headers.

(** The wait before jitter, lines 54 to 57. *)
Definition retry_wait (headers_map : gmap string string)
    (base_sleep : Q) (attempt : Z) : Q :=
  match _parse_retry_after headers_map with
  | Some retry_after => retry_after
  | None => pymin (base_sleep * inject_Z (2 ^ attempt)) 60
  end.

(** The jitter of line 59, with [r] the random draw. *)
Definition jitter_of (retry_after r : Q) : Q :=
  uniform 0 ((2 # 10) * retry_after) r.

(** [sleep_s] of line 60. *)
Definition sleep_duration (retry_after r : Q) : Q :=
  retry_after + jitter_of retry_after r.

(** The [while True] loop of [usage_with_retry], run for at most [fuel]
    iterations; [None] when the fuel runs out. *)
Fixpoint retry_loop (fuel : nat) (scope : string) (period : string * string)
    (max_retries : Z) (base_sleep : Q) (attempt : Z) (w : world)
  : option (completion Response * world) :=
  match fuel with
  | O => None
  | S fuel' =>
      let called :=
        {| n_calls := S (n_calls w); n_draws := n_draws w;
           slept := slept w |} in
      match usage (n_calls w) scope period with
      | Returned resp => Some (Returned resp, called)
      | Raised (HttpResponseError status_code headers_map) =>
          if is_transient status_code then
            let retry_after := retry_wait headers_map base_sleep attempt in
            let sleep_s := sleep_duration retry_after (random (n_draws w)) in
            let waited :=
              {| n_calls := S (n_calls w); n_draws := S (n_draws w);
                 slept := slept w ++ [sleep_s] |} in
            let attempt := (attempt + 1)%Z in
            if (max_retries <=? attempt)%Z
            then Some (Raised (HttpResponseError status_code headers_map),
                       waited)
            else retry_loop fuel' scope period max_retries base_sleep
                   attempt waited
          else Some (Raised (HttpResponseError status_code headers_map),
                     called)
      | Raised e => Some (Raised e, called)
      end
  end.

(** [usage_with_retry]: the loop from [attempt = 0]. It makes at most
    [max(1, max_retries)] calls, so this fuel is never used up. *)
Definition usage_with_retry (scope : string) (period : string * string)
    (max_retries : Z) (base_sleep : Q) (w : world)
  : option (completion Response * world) :=
  retry_loop (S (Z.to_nat max_retries)) scope period max_retries
    base_sleep 0 w.

(** [r[rg_idx] or ""], to be lower-cased later. *)
Definition rg_value (c : cell) : cell :=
  match c with
  | CNull => CStr ""
  | CNum q => if Qeq_bool q 0 then CStr "" else c
  | CStr _ => c
  end.

(** [float(r[cost_idx] or 0.0)] *)
Definition cost_value (c : cell) : completion Q :=
  match c with
  | CNull => Returned 0
  | CNum q => if Qeq_bool q 0 then Returned 0 else Returned q
  | CStr EmptyString => Returned 0
  | CStr s =>
      match to_float s with
      | Some q => Returned q
      | None => Raised (OtherError "ValueError")
      end
  end.

(** [rg.lower()] *)
Definition lower_value (c : cell) : completion string :=
  match c with
  | CStr s => Returned (lower s)
  | _ => Raised (OtherError "AttributeError")
  end.

(** The body of [for r in rows]. *)
Definition cost_row_step (rg_idx cost_idx : nat)
    (out : gmap string Q) (r : list cell) : completion (gmap string Q) :=
  rg ← rg_value <$> index r rg_idx;
  cost ← index r cost_idx ≫= cost_value;
  key ← lower_value rg;
  Returned (<[key := default 0 (out !! key) + cost]> out).

Fixpoint fold_cost_rows (rg_idx cost_idx : nat) (rows : list (list cell))
    (out : gmap string Q) : completion (gmap string Q) :=
  match rows with
  | [] => Returned out
  | r :: rows' =>
      out' ← cost_row_step rg_idx cost_idx out r;
      fold_cost_rows rg_idx cost_idx rows' out'
  end.

(** What [query_rg_costs_for_subscription] does with the response. *)
Definition aggregate_response (resp : Response)
  : completion (gmap string Q) :=
  rg_idx ← find_rg_idx (columns resp);
  cost_idx ← find_cost_idx (columns resp);
  fold_cost_rows rg_idx cost_idx (rows resp) ∅.

Definition query_rg_costs_for_subscription (subscription_id : string)
    (start_iso end_iso : string) (max_retries : Z) (w : world)
  : option (completion (gmap string Q) * world) :=
  let scope := ("/subscriptions/" ++ subscription_id)%string in
  match usage_with_retry scope (start_iso, end_iso) max_retries 2 w with
  | None => None
  | Some (Raised e, w') => Some (Raised e, w')
  | Some (Returned resp, w') => Some (aggregate_response resp, w')
  end.

(** *** The record loop of main *)

(** One entry of [subscriptions] in the configuration. *)
Record Target := {
  id : string;
  resource_groups : list string
}.

Record CostRecord := {
  subscription_id : string;
  resource_group : string;
  start : string;
  end_ : string;
  total_cost : Q
}.

(** [time.sleep(seconds)] *)
Definition sleep (seconds : Q) (w : world) : world :=
  {| n_calls := n_calls w; n_draws := n_draws w;
     slept := slept w ++ [seconds] |}.

(** The records one subscription contributes, lines 165 to 173. *)
Definition records_for (sub_id start_iso end_iso : string)
    (rg_costs : gmap string Q) (wanted_rgs : list string)
  : list CostRecord :=
  map (λ rg,
         let cost := default 0 (rg_costs !! rg) in
         {| subscription_id := sub_id;
            resource_group := rg;
            start := start_iso;
            end_ := end_iso;
            total_cost := round2 cost |})
      wanted_rgs.

(** [for sub in targets], lines 158 to 174, from the [records]
    collected so far. *)
Fixpoint main_loop (targets : list Target) (start_iso end_iso : string)
    (maxretries : Z) (pause : Q) (records : list CostRecord) (w : world)
  : option (completion (list CostRecord) * world) :=
  match targets with
  | [] => Some (Returned records, w)
  | sub :: targets' =>
      let sub_id := id sub in
      let wanted_rgs := map lower (resource_groups sub) in
      match query_rg_costs_for_subscription sub_id start_iso end_iso
              maxretries w with
      | None => None
      | Some (Raised e, w') => Some (Raised e, w')
      | Some (Returned rg_costs, w') =>
          main_loop targets' start_iso end_iso maxretries pause
            (records ++ records_for sub_id start_iso end_iso rg_costs
                          wanted_rgs)
            (sleep pause w')
      end
  end.

(** *** Notions the properties are stated with *)

(** The key and the cost a row contributes when the loop body runs
    through. *)
Definition row_key (rg_idx : nat) (r : list cell) : completion string :=
  index r rg_idx ≫= λ c, lower_value (rg_value c).

Definition row_cost (cost_idx : nat) (r : list cell) : completion Q :=
  index r cost_idx ≫= cost_value.

(** The costs of the rows filed under the key [k], in row order. *)
Fixpoint costs_under (rg_idx cost_idx : nat) (k : string)
    (rows : list (list cell)) : list Q :=
  match rows with
  | [] => []
  | r :: rows' =>
      match row_key rg_idx r, row_cost cost_idx r with
      | Returned k', Returned c =>
          if decide (k' = k)
          then c :: costs_under rg_idx cost_idx k rows'
          else costs_under rg_idx cost_idx k rows'
      | _, _ => costs_under rg_idx cost_idx k rows'
      end
  end.

(** The sum the loop computes: [((0.0 + c1) + c2) + ...]. *)
Definition sum_costs (cs : list Q) : Q := fold_left Qplus cs 0.

(** [results] are the cost mappings the successive queries of
    [main_loop] return, one per target, when all of them succeed. *)
Fixpoint queried (targets : list Target) (start_iso end_iso : string)
    (maxretries : Z) (pause : Q) (w : world)
    (results : list (gmap string Q)) : Prop :=
  match targets, results with
  | [], [] => True
  | sub :: targets', rg_costs :: results' =>
      ∃ w', query_rg_costs_for_subscription (id sub) start_iso end_iso
              maxretries w = Some (Returned rg_costs, w')
            ∧ queried targets' start_iso end_iso maxretries pause
                (sleep pause w') results'
  | _, _ => False
  end.

End Effects.

(** [e] is an [HttpResponseError] of the rate-limit or
    service-unavailable class. *)
Definition transient_exn (e : exn) : bool :=
  match e with
  | HttpResponseError status_code _ => is_transient status_code
  | _ => false
  end.

(** The (subscription, requested resource group) pairs of the
    configuration, in order, each with the cost mapping queried for its
    subscription. *)
Definition requested_pairs (targets : list Target)
    (results : list (gmap string Q))
  : list (Target * string * gmap string Q) :=
  concat (zip_with (λ sub rg_costs,
                      map (λ rg, (sub, rg, rg_costs)) (resource_groups sub))
            targets results).

(** [rec] is the record of the pair [p]: the queried cost of the group,
    rounded, or zero when the query has no row for it. *)
Definition record_of_pair (start_iso end_iso : string)
    (p : Target * string * gmap string Q) (rec : CostRecord) : Prop :=
  let '(sub, rg, rg_costs) := p in
  subscription_id rec = id sub
  ∧ resource_group rec = lower rg
  ∧ start rec = start_iso
  ∧ end_ rec = end_iso
  ∧ total_cost rec = match rg_costs !! lower rg with
                     | Some cost => round2 cost
                     | None => 0
                     end.

(** The validity of a [datetime], as the constructor enforces it. *)
Definition valid_datetime (d : datetime) : Prop :=
  (1 ≤ year d ≤ 9999 ∧ 1 ≤ month d ≤ 12
   ∧ 1 ≤ day d ≤ days_in_month (year d) (month d)
   ∧ 0 ≤ hour d < 24 ∧ 0 ≤ minute d < 60 ∧ 0 ≤ second d < 60
   ∧ 0 ≤ microsecond d < 1000000)%Z.

(** The calendar month before the month [m] of the year [y]. *)
Definition month_before (y m : Z) : Z * Z :=
  if (m =? 1)%Z then ((y - 1)%Z, 12%Z) else (y, (m - 1)%Z).

(** Midnight of the first day of a month, in ISO 8601 with the [Z]
    suffix: [YYYY-MM-01T00:00:00Z]. *)
Definition first_of_month_stamp (ym : Z * Z) : string :=
  zpad 4 ym.1 +:+ "-" +:+ zpad 2 ym.2 +:+ "-01T00:00:00Z".

(** The wait bound in the words of the specification: every wait before
    jitter is at most 60 seconds, with or without a hint. *)
Definition wait_always_capped (to_float : string → option Q) : Prop :=
  ∀ (headers_map : gmap string string) (base_sleep : Q) (attempt : Z),
    retry_wait to_float headers_map base_sleep attempt <= 60.

(** *** A header parser for the examples *)

Fixpoint digits_value (s : string) (acc : Z) : option Z :=
  match s with
  | EmptyString => Some acc
  | String c s' =>
      let n := N_of_ascii c in
      if ((48 <=? n) && (n <=? 57))%N
      then digits_value s' (10 * acc + Z.of_N (n - 48))%Z
      else None
  end.

(** [float(v)] on a non-empty string of decimal digits, which is what a
    Retry-After header in seconds holds; every other string is refused. *)
Definition float_of_digits (s : string) : option Q :=
  match s with
  | EmptyString => None
  | _ => inject_Z <$> digits_value s 0
  end.

(** *** Data of the worked examples *)

Definition retry_after_120 : gmap string string := {[ "Retry-After" := "120" ]}.

(** The float [12.345], exactly. *)
Definition float_12_345 : Q := 6949617174986097 # 562949953421312.

(** A response with the cost of [rg1] only, spread over rows that differ
    in the casing of the name, one of them with a null cost. *)
Definition resp_rg1 : Response :=
  {| columns := [Some "PreTaxCost"; Some "ResourceGroupName"; Some "Currency"];
     rows := [ [CNum float_12_345; CStr "RG1"; CStr "USD"];
               [CNull; CStr "rg1"; CStr "USD"] ] |}.

(** A remote side that throttles the first call with a hint, is
    unavailable at the second and answers from the third on. *)
Definition throttled_twice (n : nat) (scope : string)
    (period : string * string) : completion Response :=
  match n with
  | 0%nat => Raised (HttpResponseError (Some 429%Z) retry_after_120)
  | 1%nat => Raised (HttpResponseError (Some 503%Z) ∅)
  | _ => Returned resp_rg1
  end.

(** A remote side that answers at once, and one that always throttles. *)
Definition answers_at_once (n : nat) (scope : string)
    (period : string * string) : completion Response :=
  Returned resp_rg1.

Definition always_throttled (n : nat) (scope : string)
    (period : string * string) : completion Response :=
  Raised (HttpResponseError (Some 429%Z) ∅).

(** A remote side that refuses the caller. *)
Definition refused (n : nat) (scope : string)
    (period : string * string) : completion Response :=
  Raised (HttpResponseError (Some 403%Z) ∅).

Definition half (n : nat) : Q := 1 # 2.

Definition config_rg1_rg2 : list Target :=
  [ {| id := "s1"; resource_groups := ["rg1"; "rg2"] |} ].

Definition config_mixed_case : list Target :=
  [ {| id := "s1"; resource_groups := ["Rg1"; "RG2"] |} ].

Definition mid_march_2024 : datetime :=
  {| year := 2024; month := 3; day := 15;
     hour := 10; minute := 2; second := 3; microsecond := 55 |}.

End PullMonthly.

(** ** The rest of preparation/build_subscriptions_yaml.py *)

Module PreparationMain.
Import PyStr Preparation.

(** *** detect_headers and load_rows *)

Definition HEADERS_CANDIDATES : list (string * string) :=
  [ ("subscription", "resource_group") ].

(** [{f.strip().lower(): f for f in fields}]: a later field replaces an
    earlier one with the same normalised name. *)
Definition lower_map (fields : list string) : gmap string string :=
  fold_left (λ m f, <[lower (strip f) := f]> m) fields ∅.

(** The loop over [HEADERS_CANDIDATES]. *)
Fixpoint first_candidate (candidates : list (string * string))
    (m : gmap string string) : option (string * string) :=
  match candidates with
  | [] => None
  | (sub_col, rg_col) :: candidates' =>
      match m !! sub_col, m !! rg_col with
      | Some sub_header, Some rg_header => Some (sub_header, rg_header)
      | _, _ => first_candidate candidates' m
      end
  end.

(** [detect_headers]; [None] stands for the [ValueError] it raises. *)
Definition detect_headers (fieldnames : list string)
  : option (string * string) :=
  let fields := List.filter (λ f, truthy (Some f)) fieldnames in
  first_candidate HEADERS_CANDIDATES (lower_map fields).

(** The body of [for row in reader]: the pair yielded, if any. A row of
    [csv.DictReader] is a dictionary from header to value; a value that is
    missing or [None] reads as the empty string. *)
Definition load_row (sub_col rg_col : string) (row : gmap string string)
  : option (string * string) :=
  let sub_raw := strip (or_empty (row !! sub_col)) in
  let rg := strip (or_empty (row !! rg_col)) in
  if negb (truthy (Some sub_raw)) || negb (truthy (Some rg)) then None
  else Some (sub_raw, rg).

(** [list(load_rows(path))] for a file with the given header line and
    records; [None] when [detect_headers] raises. *)
Definition load_rows (fieldnames : list string)
    (records : list (gmap string string)) : option (list (string * string)) :=
  match detect_headers fieldnames with
  | None => None
  | Some (sub_col, rg_col) => Some (omap (load_row sub_col rg_col) records)
  end.

(** *** The document main writes *)

(** The keys of [agg_rgs] in insertion order: a subscription id enters the
    dictionary when the first row that resolves to it is folded. *)
Definition order_step (n2i i2n : gmap string string)
    (order : list string) (row : string * string) : list string :=
  match (resolve_subscription_id row.1 n2i i2n).1 with
  | Some sid =>
      if truthy (Some sid) && negb (bool_decide (sid ∈ order))
      then order ++ [sid] else order
  | None => order
  end.

Definition agg_order (n2i i2n : gmap string string)
    (rows : list (string * string)) : list string :=
  fold_left (order_step n2i i2n) rows [].

(** [sorted(l, key=key)]: a stable sort by the string order of the keys. *)
Fixpoint insert_by {A : Type} (key : A → string) (x : A) (l : list A)
  : list A :=
  match l with
  | [] => [x]
  | y :: l' =>
      if String.ltb (key y) (key x) then y :: insert_by key x l' else x :: l
  end.

Definition sorted_by {A : Type} (key : A → string) (l : list A) : list A :=
  fold_right (insert_by key) [] l.

(** One item of [out_doc["subscriptions"]]. *)
Record doc_entry := {
  doc_id : string;
  doc_name : string;
  doc_resource_groups : list string
}.

(** [out_doc["subscriptions"]], lines 215 to 221. *)
Definition out_doc (st : agg_state) (order : list string)
    (i2n : gmap string string) : list doc_entry :=
  map (λ sid,
         {| doc_id := sid;
            doc_name := default (default "" (i2n !! sid)) (agg_name st !! sid);
            doc_resource_groups :=
              sorted_by id (elements (default ∅ (agg_rgs st !! sid))) |})
      (sorted_by lower order).

Definition no_rows_msg : string :=
  "No valid rows found in the CSV. Nothing to do.".
Definition none_resolved_msg : string :=
  "No subscriptions resolved to IDs. Exiting.".

(** How [main] ends: [sys.exit(code)], or the document written. *)
Inductive main_outcome :=
| SysExit (code : Z)
| WroteYaml (subscriptions : list doc_entry).

(** [main] from the header line and records of the CSV file and the
    directory listing, with what it prints to [sys.stderr]. [value_error]
    is the text of the [ValueError] of [detect_headers]. *)
Definition main (value_error : list string → string)
    (fieldnames : list string) (records : list (gmap string string))
    (subs : list Subscription) : main_outcome * list string :=
  match load_rows fieldnames records with
  | None =>
      (SysExit 2, ["Error reading CSV: " +:+ value_error fieldnames])
  | Some [] => (SysExit 1, [no_rows_msg])
  | Some rows =>
      let idx := build_subscription_index subs in
      let st := aggregate (name_to_id idx) (id_to_name idx) rows in
      let printed := stderr idx ++ agg_stderr st in
      if bool_decide (agg_rgs st = ∅)
      then (SysExit 1, printed ++ [none_resolved_msg])
      else
        (WroteYaml (out_doc st
                      (agg_order (name_to_id idx) (id_to_name idx) rows)
                      (id_to_name idx)),
         printed)
  end.

(** *** resolve_output_path *)



Section Paths.

(** The operations of [pathlib] the function uses: [Path(p).name],
    [p.expanduser()], [p.resolve()], [dir / name] and [Path.cwd()]. *)
Variable path_name : string → string.
Variable expanduser : string → string.
Variable resolve : string → string.
Variable joinpath : string → string → string.
Variable cwd : string.


End Paths.

(** *** Data of the worked examples *)

(** A listing in which the subscription [A] appears twice, renamed. *)
Definition two_ids_renamed : list Subscription :=
  [ {| display_name := Some "Old"; subscription_id := Some "A" |};
    {| display_name := Some "New"; subscription_id := Some "A" |} ].

Definition csv_header : list string := ["Subscription"; "Resource_Group"].

(** Three records: a complete one, one with a blank subscription and one
    without a resource group. *)
Definition csv_records : list (gmap string string) :=
  [ {[ "Subscription" := " SubA "; "Resource_Group" := "rg1" ]};
    {[ "Subscription" := "   "; "Resource_Group" := "rg2" ]};
    {[ "Subscription" := "SubB" ]} ].

End PreparationMain.

(** ** The rest of pull_monthly/rg_monthly_costs.py *)

Module PullMonthlyMain.
Import PyStr PullMonthly.

(** [start_iso[:7]] *)
Definition month_label (start_iso : string) : string := substring 0 7 start_iso.

(** [Path("../outputs") / f"costs_{month_label}.csv"] *)
Definition default_out_path (label : string) : string :=
  "../outputs/costs_" +:+ label +:+ ".csv".

(** The calls of a run of the executor that were followed by a sleep:
    all of them when the run ends on a transient error, all but the last
    otherwise. *)
Definition slept_after (out : completion Response) (calls : nat) : nat :=
  match out with
  | Raised e => if transient_exn e then calls else (calls - 1)%nat
  | Returned _ => (calls - 1)%nat
  end.

Definition no_subscriptions_msg : string := "No subscriptions in config.".

(** How [main] ends: [sys.exit(code)] after printing to [sys.stderr], an
    exception that reaches the top level, or the CSV file written with its
    records. *)
Inductive main_outcome :=
| SysExit (code : Z) (printed : list string)
| Uncaught (e : exn)
| WroteCsv (out_path : string) (records : list CostRecord).

Section Effects.

Variable to_float : string → option Q.
Variable usage : nat → string → string * string → completion Response.
Variable random : nat → Q.

(** [main] from the [subscriptions] of the configuration, the arguments
    [--out], [--sleep] and [--maxretries], and the clock reading. *)
Definition main (targets : list Target) (out : option string) (pause : Q)
    (maxretries : Z) (now_utc : datetime) (w : world)
  : option (main_outcome * world) :=
  match targets with
  | [] => Some (SysExit 2 [no_subscriptions_msg], w)
  | _ =>
      match previous_month_range now_utc with
      | Raised e => Some (Uncaught e, w)
      | Returned (start_iso, end_iso) =>
          let out_path :=
            if truthy out then or_empty out
            else default_out_path (month_label start_iso) in
          match main_loop to_float usage random targets start_iso end_iso
                  maxretries pause [] w with
          | None => None
          | Some (Raised e, w') => Some (Uncaught e, w')
          | Some (Returned records, w') => Some (WroteCsv out_path records, w')
          end
      end
  end.

End Effects.

(** *** Data of the worked examples *)

(** A response that carries an HTTP date in [Retry-After] and seconds in
    a rate-limit header. *)
Definition date_then_seconds : gmap string string :=
  {[ "Retry-After" := "Wed, 21 Oct 2015 07:28:00 GMT";
     "x-ms-ratelimit-microsoft.costmanagement-qpu-retry-after" := "5" ]}.



End PullMonthlyMain.

(** * Properties of the subscription resolver *)

Module PreparationSpec.
Import PyStr Preparation.

(** ** The GUID pattern *)

Lemma hex_group_app (n : nat) (g rest : string) :
  hex_string n g → hex_group n (g +:+ rest) = Some rest.
Proof.
  revert g. induction n as [|n IH]; intros g [Hlen Hhex].
  - destruct g; [reflexivity | discriminate].
  - destruct g as [|c g]; [discriminate|].
    simpl in *. inversion Hhex as [|? ? Hc Hg]; subst.
    rewrite Hc. apply IH. split; [congruence | assumption].
Qed.

Lemma append_empty_r (s : string) : s +:+ "" = s.
Proof.
  induction s as [|c s IH]; [reflexivity|].
  change (String c (s +:+ "") = String c s). by rewrite IH.
Qed.

Lemma dash_app (rest : string) : dash ("-" +:+ rest) = Some rest.
Proof. reflexivity. Qed.

(** Every string of the 8-4-4-4-12 shape is matched. *)
Lemma guid_shape_matches (s : string) :
  guid_shape s → GUID_RE_match s = true.
Proof.
  intros (g1 & g2 & g3 & g4 & g5 & H1 & H2 & H3 & H4 & H5 & ->).
  unfold GUID_RE_match. cbn [mbind option_bind].
  rewrite (hex_group_app 8 g1) by assumption. cbn [mbind option_bind].
  rewrite dash_app.
  cbn [mbind option_bind].
  rewrite (hex_group_app 4 g2) by assumption. cbn [mbind option_bind].
  rewrite dash_app.
  cbn [mbind option_bind].
  rewrite (hex_group_app 4 g3) by assumption. cbn [mbind option_bind].
  rewrite dash_app.
  cbn [mbind option_bind].
  rewrite (hex_group_app 4 g4) by assumption. cbn [mbind option_bind].
  rewrite dash_app.
  cbn [mbind option_bind].
  rewrite <- (append_empty_r g5).
  rewrite (hex_group_app 12 g5) by assumption. reflexivity.
Qed.

(** ** The index loop *)

Lemma index_step_keeps (st : index_state) (s : Subscription) (k v : string) :
  name_to_id st !! k = Some v → name_to_id (index_step st s) !! k = Some v.
Proof.
  intros Hk. unfold index_step.
  destruct (decide (entry_sid s = "")); [assumption|].
  destruct (decide (entry_key s ∈ seen_names st)); cbn [name_to_id seen_names stderr id_to_name]; [assumption|].
  destruct (name_to_id st !! entry_key s) eqn:Hkey; [assumption|].
  rewrite lookup_insert_ne; [assumption | congruence].
Qed.

Lemma index_fold_keeps (l : list Subscription) (st : index_state) (k v : string) :
  name_to_id st !! k = Some v →
  name_to_id (fold_left index_step l st) !! k = Some v.
Proof.
  revert st. induction l as [|s l IH]; intros st Hk; cbn [name_to_id seen_names stderr id_to_name]; [assumption|].
  apply IH, index_step_keeps, Hk.
Qed.

Lemma index_step_seen (st : index_state) (s : Subscription) (k : string) :
  k ∈ seen_names st → k ∈ seen_names (index_step st s).
Proof.
  intros Hk. unfold index_step.
  destruct (decide (entry_sid s = "")); [assumption|].
  destruct (decide (entry_key s ∈ seen_names st)); cbn [name_to_id seen_names stderr id_to_name]; set_solver.
Qed.

Lemma index_fold_seen (l : list Subscription) (st : index_state) (k : string) :
  k ∈ seen_names st → k ∈ seen_names (fold_left index_step l st).
Proof.
  revert st. induction l as [|s l IH]; intros st Hk; cbn [name_to_id seen_names stderr id_to_name]; [assumption|].
  apply IH, index_step_seen, Hk.
Qed.

(** A key no processed entry carries is neither seen nor recorded. *)
Lemma index_fold_fresh (l : list Subscription) (st : index_state) (k : string) :
  (k ∉ seen_names st) → name_to_id st !! k = None →
  (∀ e, e ∈ l → entry_sid e ≠ "" → entry_key e ≠ k) →
  (k ∉ seen_names (fold_left index_step l st))
  ∧ name_to_id (fold_left index_step l st) !! k = None.
Proof.
  revert st. induction l as [|s l IH]; intros st Hseen Hmap Hl; simpl.
  - by split.
  - apply IH.
    + unfold index_step.
      destruct (decide (entry_sid s = "")) as [|Hsid]; [assumption|].
      assert (Hne : entry_key s ≠ k) by (apply Hl; [left | assumption]).
      destruct (decide (entry_key s ∈ seen_names st));
        cbn [name_to_id seen_names stderr id_to_name]; [assumption|].
      rewrite elem_of_union, elem_of_singleton. intros [->|?]; done.
    + unfold index_step.
      destruct (decide (entry_sid s = "")) as [|Hsid]; [assumption|].
      assert (Hne : entry_key s ≠ k) by (apply Hl; [left | assumption]).
      destruct (decide (entry_key s ∈ seen_names st)); cbn [name_to_id seen_names stderr id_to_name]; [assumption|].
      destruct (name_to_id st !! entry_key s); [assumption|].
      by rewrite lookup_insert_ne.
    + intros e He. apply Hl. by right.
Qed.

(** The first entry that carries a key records its id and marks the key
    as seen. *)
Lemma index_step_first (st : index_state) (s : Subscription) :
  entry_sid s ≠ "" → (entry_key s ∉ seen_names st) →
  name_to_id st !! entry_key s = None →
  name_to_id (index_step st s) !! entry_key s = Some (entry_sid s)
  ∧ entry_key s ∈ seen_names (index_step st s).
Proof.
  intros Hsid Hseen Hmap. unfold index_step.
  destruct (decide (entry_sid s = "")); [done|].
  destruct (decide (entry_key s ∈ seen_names st)); [done|]. cbn [name_to_id seen_names stderr id_to_name].
  rewrite Hmap, lookup_insert_eq. split; [done | set_solver].
Qed.

(** An entry whose key was seen before prints the warning and leaves
    [name_to_id] alone. *)
Lemma index_step_duplicate (st : index_state) (s : Subscription) :
  entry_sid s ≠ "" → entry_key s ∈ seen_names st →
  name_to_id (index_step st s) = name_to_id st
  ∧ stderr (index_step st s)
    = stderr st ++ [duplicate_warning (entry_display s)].
Proof.
  intros Hsid Hseen. unfold index_step.
  destruct (decide (entry_sid s = "")); [done|].
  destruct (decide (entry_key s ∈ seen_names st)); [done|done].
Qed.

Lemma index_init_app (l more : list Subscription) :
  l ≠ [] → index_init (l ++ more) = index_init l.
Proof. destruct l; [done | reflexivity]. Qed.

Lemma build_app (l more : list Subscription) :
  l ≠ [] →
  build_subscription_index (l ++ more)
  = fold_left index_step more (build_subscription_index l).
Proof.
  intros Hl. unfold build_subscription_index.
  by rewrite fold_left_app, index_init_app.
Qed.

Lemma build_keeps (subs more : list Subscription) (k v : string) :
  name_to_id (build_subscription_index subs) !! k = Some v →
  name_to_id (build_subscription_index (subs ++ more)) !! k = Some v.
Proof.
  destruct subs as [|s subs].
  - cbn. by rewrite lookup_empty.
  - intros Hk. rewrite build_app by done. by apply index_fold_keeps.
Qed.

(** C5: [build_subscription_index] never overwrites a [name_to_id] entry.
    (1) Whatever entries follow, a recorded key keeps its value. (2) When
    [first] is the first entry of the listing that carries a key and a
    later entry [dup] has the same lower-cased display name, the key maps
    to the id of [first] before [dup], after [dup] and at the end of the
    listing, and processing [dup] prints exactly one line, the duplicate
    warning, without failing. (3) On the listing
    [{id: A, name: "X"}, {id: B, name: "X"}] the index has
    [name_to_id["x"] = A] and the duplicate warning was printed exactly
    once. *)
Theorem name_to_id_first_seen_wins :
  (∀ (subs more : list Subscription) (k v : string),
      name_to_id (build_subscription_index subs) !! k = Some v →
      name_to_id (build_subscription_index (subs ++ more)) !! k = Some v)
  ∧ (∀ (before between after : list Subscription) (first dup : Subscription),
        entry_sid first ≠ "" → entry_sid dup ≠ "" →
        entry_key dup = entry_key first →
        (∀ e, e ∈ before → entry_sid e ≠ "" → entry_key e ≠ entry_key first) →
        let seen := before ++ first :: between in
        name_to_id (build_subscription_index seen) !! entry_key first
          = Some (entry_sid first)
        ∧ name_to_id (build_subscription_index (seen ++ [dup]))
            !! entry_key first = Some (entry_sid first)
        ∧ name_to_id (build_subscription_index (seen ++ dup :: after))
            !! entry_key first = Some (entry_sid first)
        ∧ stderr (build_subscription_index (seen ++ [dup]))
          = stderr (build_subscription_index seen)
            ++ [duplicate_warning (entry_display dup)])
  ∧ (name_to_id (build_subscription_index two_named_X) !! "x" = Some "A"
     ∧ stderr (build_subscription_index two_named_X)
       = [duplicate_warning "X"]).
Proof.
  split; [exact build_keeps|]. split; [|split; reflexivity].
  intros before between after first dup Hfirst Hdup Hkey Hbefore seen.
  assert (Hseen_ne : seen ≠ []) by (subst seen; by destruct before).
  assert (Hrec : name_to_id (build_subscription_index seen) !! entry_key first
                 = Some (entry_sid first)
                 ∧ entry_key first ∈ seen_names (build_subscription_index seen)).
  { subst seen. unfold build_subscription_index.
    rewrite fold_left_app. cbn [fold_left].
    destruct (index_fold_fresh before (index_init (before ++ first :: between))
                (entry_key first)) as [Hs Hm];
      [set_solver | apply lookup_empty | assumption |].
    destruct (index_step_first _ first Hfirst Hs Hm) as [Hm' Hs'].
    split; [by apply index_fold_keeps | by apply index_fold_seen]. }
  destruct Hrec as [Hrec Hseen].
  assert (Hstep : build_subscription_index (seen ++ [dup])
                  = index_step (build_subscription_index seen) dup).
  { by rewrite build_app. }
  destruct (index_step_duplicate (build_subscription_index seen) dup Hdup)
    as [Hsame Herr]; [by rewrite Hkey|].
  repeat split.
  - exact Hrec.
  - by rewrite Hstep, Hsame.
  - replace (seen ++ dup :: after) with ((seen ++ [dup]) ++ after)
      by (by rewrite <- List.app_assoc).
    apply build_keeps. by rewrite Hstep, Hsame.
  - by rewrite Hstep, Herr.
Qed.

Lemma name_to_id_first_seen_wins_witness :
  let first := {| display_name := Some "X"; subscription_id := Some "A" |} in
  let dup := {| display_name := Some "X"; subscription_id := Some "B" |} in
  name_to_id (build_subscription_index ([first] ++ dup :: []))
    !! entry_key first = Some (entry_sid first)
  ∧ stderr (build_subscription_index ([first] ++ [dup]))
    = stderr (build_subscription_index [first])
      ++ [duplicate_warning (entry_display dup)].
Proof.
  intros first dup.
  destruct name_to_id_first_seen_wins as (_ & Hdup & _).
  destruct (Hdup [] [] [] first dup) as (_ & _ & Hend & Herr).
  - vm_compute. discriminate.
  - vm_compute. discriminate.
  - reflexivity.
  - intros e He. inversion He.
  - split; [exact Hend | exact Herr].
Defined.

(** ** Resolution *)

(** C6: a token that has the GUID shape (more generally, any token
    [GUID_RE] matches) is returned verbatim, whatever the two dictionaries
    of the index hold, and nothing is printed. *)
Theorem guid_pass_through (token : string) (n2i i2n : gmap string string) :
  guid_shape token ∨ GUID_RE_match token = true →
  resolve_subscription_id token n2i i2n = (Some token, []).
Proof.
  intros Hguid.
  assert (Hmatch : GUID_RE_match token = true).
  { destruct Hguid as [Hshape|Hm]; [by apply guid_shape_matches | exact Hm]. }
  unfold resolve_subscription_id. by rewrite Hmatch.
Qed.

Lemma guid_pass_through_witness :
  resolve_subscription_id guid_1
    (name_to_id (build_subscription_index dir_SubA))
    (id_to_name (build_subscription_index dir_SubA))
  = (Some guid_1, []).
Proof. apply guid_pass_through. right. reflexivity. Defined.

(** A resolved id is never the empty string. *)
Lemma resolve_truthy (t sid : string) (n2i i2n : gmap string string) :
  (resolve_subscription_id t n2i i2n).1 = Some sid → truthy (Some sid) = true.
Proof.
  unfold resolve_subscription_id.
  destruct (GUID_RE_match t) eqn:Hm; cbn [fst].
  - intros [= <-]. destruct t; [discriminate Hm | reflexivity].
  - destruct (truthy (n2i !! lower t)) eqn:Ht; cbn [fst]; [|discriminate].
    intros Heq. by rewrite Heq in Ht.
Qed.

(** ** The aggregation loop *)

Lemma agg_step_rgs (n2i i2n : gmap string string) (st : agg_state)
    (t rg : string) :
  agg_rgs (agg_step n2i i2n st (t, rg))
  = match (resolve_subscription_id t n2i i2n).1 with
    | Some sid => add_rg sid rg (agg_rgs st)
    | None => agg_rgs st
    end.
Proof.
  unfold agg_step.
  pose proof (λ sid, resolve_truthy t sid n2i i2n) as Htr.
  destruct (resolve_subscription_id t n2i i2n) as [[sid|] printed];
    cbn [fst] in *; [|reflexivity].
  by rewrite (Htr sid eq_refl).
Qed.

(** The groups folded so far for [sid]: [agg_rgs[sid]], empty when the
    key is absent. *)
Lemma add_rg_lookup (sid sid' rg : string) (d : gmap string (gset string)) :
  default ∅ (add_rg sid rg d !! sid')
  = if decide (sid = sid') then {[rg]} ∪ default ∅ (d !! sid')
    else default ∅ (d !! sid').
Proof.
  unfold add_rg. destruct (decide (sid = sid')) as [->|Hne].
  - by rewrite lookup_insert_eq.
  - by rewrite lookup_insert_ne.
Qed.

Lemma aggregate_from_elem (n2i i2n : gmap string string)
    (rows : list (string * string)) (st : agg_state) (sid rg : string) :
  rg ∈ default ∅ (agg_rgs (fold_left (agg_step n2i i2n) rows st) !! sid)
  ↔ rg ∈ default ∅ (agg_rgs st !! sid)
    ∨ ∃ t, (t, rg) ∈ rows ∧ (resolve_subscription_id t n2i i2n).1 = Some sid.
Proof.
  revert st. induction rows as [|[t' rg'] rows IH]; intros st; cbn [fold_left].
  - split; [by left|]. intros [?|(t & Ht & _)]; [done | inversion Ht].
  - rewrite IH, agg_step_rgs. split.
    + intros [Hin|(t & Ht & Hres)].
      * destruct ((resolve_subscription_id t' n2i i2n).1) as [sid'|] eqn:Hr;
          [|by left].
        rewrite add_rg_lookup in Hin.
        destruct (decide (sid' = sid)) as [->|]; [|by left].
        apply elem_of_union in Hin as [->%elem_of_singleton|Hin]; [|by left].
        right. exists t'. split; [left | assumption].
      * right. exists t. split; [by right | assumption].
    + intros [Hin|(t & Ht & Hres)].
      * left. destruct ((resolve_subscription_id t' n2i i2n).1) as [sid'|];
          [|assumption].
        rewrite add_rg_lookup. case_decide; [|assumption].
        apply elem_of_union. by right.
      * apply elem_of_cons in Ht as [[= -> ->]|Ht].
        -- left. rewrite Hres, add_rg_lookup.
           rewrite decide_True by reflexivity.
           apply elem_of_union. left. by apply elem_of_singleton.
        -- right. by exists t.
Qed.

Lemma aggregate_from_present (n2i i2n : gmap string string)
    (rows : list (string * string)) (st : agg_state) (sid t rg : string) :
  (t, rg) ∈ rows → (resolve_subscription_id t n2i i2n).1 = Some sid →
  is_Some (agg_rgs (fold_left (agg_step n2i i2n) rows st) !! sid).
Proof.
  intros Hin Hres.
  assert (Hrg : rg ∈ default ∅
                  (agg_rgs (fold_left (agg_step n2i i2n) rows st) !! sid)).
  { apply aggregate_from_elem. right. by exists t. }
  destruct (agg_rgs (fold_left (agg_step n2i i2n) rows st) !! sid);
    [by eexists | cbn in Hrg; set_solver].
Qed.

(** C1, as the specification states it, fails: the rows [("SubA", "rg1")]
    and [("SubA", "RG1")] resolve to the same subscription, their resource
    groups differ only in casing, and they fold into a target with the
    two resource groups [rg1] and [RG1]. *)
Lemma casing_not_merged :
  let idx := build_subscription_index dir_SubA in
  let n2i := name_to_id idx in
  let i2n := id_to_name idx in
  (resolve_subscription_id "SubA" n2i i2n).1 = Some guid_2
  ∧ lower "rg1" = lower "RG1"
  ∧ (elements ∘ resource_groups
       <$> resolved_target (aggregate n2i i2n rows_rg1_RG1) guid_2)
    = Some ["rg1"; "RG1"]
  ∧ ¬ folds_to_one_group n2i i2n ("SubA", "rg1") ("SubA", "RG1").
Proof.
  intros idx n2i i2n. split; [reflexivity|]. split; [reflexivity|].
  split; [reflexivity|]. intros Hclaim.
  destruct (Hclaim guid_2) as (tgt & Htgt & Hsize); [reflexivity..|].
  vm_compute in Htgt. injection Htgt as <-.
  vm_compute in Hsize. discriminate Hsize.
Qed.

(** C1, amended: the fold keeps resource-group names as they are written
    and compares them case-sensitively. When two rows of the input
    resolve to the same subscription id, the target of that id exists, its
    resource groups are exactly the names of the rows that resolve to that
    id, both rows' names are among them, and names that differ (be it only
    in casing) are two elements; folding just these two rows gives one
    element when the two names are identical and two otherwise. *)
Theorem resource_groups_case_sensitive (n2i i2n : gmap string string)
    (rows : list (string * string)) (sid t1 rg1 t2 rg2 : string) :
  (t1, rg1) ∈ rows → (t2, rg2) ∈ rows →
  (resolve_subscription_id t1 n2i i2n).1 = Some sid →
  (resolve_subscription_id t2 n2i i2n).1 = Some sid →
  ∃ tgt,
    resolved_target (aggregate n2i i2n rows) sid = Some tgt
    ∧ (∀ rg, rg ∈ resource_groups tgt
             ↔ ∃ t, (t, rg) ∈ rows
                    ∧ (resolve_subscription_id t n2i i2n).1 = Some sid)
    ∧ rg1 ∈ resource_groups tgt
    ∧ rg2 ∈ resource_groups tgt
    ∧ (rg1 ≠ rg2 → 2 ≤ size (resource_groups tgt))
    ∧ (rows = [(t1, rg1); (t2, rg2)] →
       size (resource_groups tgt) = if decide (rg1 = rg2) then 1 else 2).
Proof.
  intros Hin1 Hin2 Hres1 Hres2.
  destruct (aggregate_from_present n2i i2n rows agg_init sid t1 rg1 Hin1 Hres1)
    as [rgs Hrgs].
  assert (Hchar : ∀ rg, rg ∈ rgs
                        ↔ ∃ t, (t, rg) ∈ rows
                               ∧ (resolve_subscription_id t n2i i2n).1 = Some sid).
  { intros rg.
    pose proof (aggregate_from_elem n2i i2n rows agg_init sid rg) as Hiff.
    rewrite Hrgs in Hiff. cbn [default] in Hiff. rewrite Hiff.
    unfold agg_init. cbn [agg_rgs]. rewrite lookup_empty. cbn [default].
    split; [intros [Hempty|H]; [by apply not_elem_of_empty in Hempty | exact H]
           | by right]. }
  assert (H1 : rg1 ∈ rgs) by (apply Hchar; by exists t1).
  assert (H2 : rg2 ∈ rgs) by (apply Hchar; by exists t2).
  assert (Htwo : rg1 ≠ rg2 → size ({[rg1]} ∪ {[rg2]} : gset string) = 2).
  { intros Hne. rewrite size_union, !size_singleton; [reflexivity|].
    intros x ->%elem_of_singleton ?%elem_of_singleton. done. }
  exists {| target_id := sid; resource_groups := rgs |}.
  unfold resolved_target, aggregate. rewrite Hrgs. cbn [fmap option_fmap option_map resource_groups].
  repeat split; try done.
  - by apply Hchar.
  - by apply Hchar.
  - intros Hne. rewrite <- (Htwo Hne). apply subseteq_size.
    intros x [->%elem_of_singleton| ->%elem_of_singleton]%elem_of_union; done.
  - intros ->.
    assert (Heq : rgs = {[rg1]} ∪ {[rg2]}).
    { apply set_eq. intros rg. rewrite Hchar, elem_of_union, !elem_of_singleton.
      split.
      - intros (t & Ht & _).
        apply elem_of_cons in Ht as [[= _ ->]|Ht]; [by left|].
        apply elem_of_cons in Ht as [[= _ ->]|Ht]; [by right | inversion Ht].
      - intros [-> | ->]; [by exists t1 | by exists t2]. }
    rewrite Heq. destruct (decide (rg1 = rg2)) as [->|Hne]; [|by apply Htwo].
    rewrite (idemp_L (∪)). apply size_singleton.
Qed.

Lemma resource_groups_case_sensitive_witness :
  let idx := build_subscription_index dir_SubA in
  ∃ tgt,
    resolved_target (aggregate (name_to_id idx) (id_to_name idx) rows_rg1_RG1)
      guid_2 = Some tgt
    ∧ "rg1" ∈ resource_groups tgt
    ∧ "RG1" ∈ resource_groups tgt
    ∧ size (resource_groups tgt) = 2.
Proof.
  intros idx.
  destruct (resource_groups_case_sensitive (name_to_id idx) (id_to_name idx)
              rows_rg1_RG1 guid_2 "SubA" "rg1" "SubA" "RG1")
    as (tgt & Htgt & _ & H1 & H2 & _ & Hsize).
  - left.
  - right. left.
  - reflexivity.
  - reflexivity.
  - exists tgt. repeat split; try assumption. exact (Hsize eq_refl).
Defined.

End PreparationSpec.

(** * Properties of the monthly cost pull *)

Module PullMonthlySpec.
Import PyStr PullMonthly.

Local Open Scope Q_scope.

(** ** Waiting between attempts *)

Lemma pymin_le_r (a b : Q) : pymin a b <= b.
Proof.
  unfold pymin. destruct (Qlt_le_dec b a) as [Hlt|Hle].
  - apply Qle_refl.
  - exact Hle.
Qed.

(** C2, as the specification states it, fails: a [Retry-After: 120]
    header makes the wait before jitter 120 seconds. *)
Lemma hint_is_not_capped :
  retry_wait float_of_digits retry_after_120 2 0 = 120
  ∧ ¬ wait_always_capped float_of_digits.
Proof.
  split; [reflexivity|].
  intros Hcap. specialize (Hcap retry_after_120 2 0%Z).
  vm_compute in Hcap. apply Hcap. reflexivity.
Qed.

(** C2, amended: the cap applies to the computed backoff only. Without a
    numeric wait hint the wait before jitter is
    [min(base_sleep * 2^attempt, 60.0)], which is at most 60 seconds; with
    a hint the wait is the hint itself, whatever its size. *)
Theorem backoff_capped_hint_verbatim (to_float : string → option Q)
    (headers_map : gmap string string) (base_sleep : Q) (attempt : Z) :
  match _parse_retry_after to_float headers_map with
  | Some hint =>
      retry_wait to_float headers_map base_sleep attempt = hint
  | None =>
      retry_wait to_float headers_map base_sleep attempt
      = pymin (base_sleep * inject_Z (2 ^ attempt)) 60
      ∧ retry_wait to_float headers_map base_sleep attempt <= 60
  end.
Proof.
  unfold retry_wait.
  destruct (_parse_retry_after to_float headers_map) as [hint|].
  - reflexivity.
  - split; [reflexivity | apply pymin_le_r].
Qed.



(** ** The query period *)

Lemma days_in_month_pos (y m : Z) : (28 ≤ days_in_month y m ≤ 31)%Z.
Proof.
  unfold days_in_month.
  destruct (m =? 2)%Z; [destruct (is_leap y); lia|].
  destruct ((m =? 4) || (m =? 6) || (m =? 9) || (m =? 11))%Z; lia.
Qed.

(** The day before the first of a month lies in the month before. *)
Lemma minus_one_day_first (d : datetime) :
  (1 ≤ month d)%Z → (1 < year d ∨ 1 < month d)%Z →
  ∃ last,
    minus_one_day (replace_first_midnight d) = Returned last
    ∧ (year last, month last) = month_before (year d) (month d)
    ∧ (28 ≤ day last ≤ 31)%Z.
Proof.
  intros Hm Hy. unfold minus_one_day, month_before.
  cbn [replace_first_midnight day month year].
  change (1 <? 1)%Z with false. cbn match.
  destruct (Z.ltb_spec 1 (month d)) as [Hlt|Hge].
  - eexists. split; [reflexivity|]. cbn [year month day].
    split; [|apply days_in_month_pos].
    destruct (Z.eqb_spec (month d) 1); [lia | reflexivity].
  - assert (Hm1 : month d = 1%Z) by lia.
    destruct (Z.ltb_spec 1 (year d)) as [Hlty|Hgey]; [|lia].
    eexists. split; [reflexivity|]. cbn [year month day].
    rewrite Hm1. split; [reflexivity | lia].
Qed.

Lemma string_app_assoc (a b c : string) : (a +:+ b) +:+ c = a +:+ (b +:+ c).
Proof.
  induction a as [|x a IH]; [reflexivity|].
  change (String x ((a +:+ b) +:+ c) = String x (a +:+ (b +:+ c))).
  by rewrite IH.
Qed.

Lemma isoformat_first_midnight (d : datetime) :
  isoformat (replace_first_midnight d) +:+ "Z"
  = first_of_month_stamp (year d, month d).
Proof.
  unfold isoformat, first_of_month_stamp, replace_first_midnight.
  cbn [year month day hour minute second microsecond fst snd].
  change (0 =? 0)%Z with true. cbn match.
  change (zpad 2 1) with "01". change (zpad 2 0) with "00".
  rewrite !string_app_assoc. reflexivity.
Qed.

(** C9: for every valid invocation time (other than one in January of
    the year 1, which has no month before it), [previous_month_range]
    returns the pair [(start, end)] of the stamps [YYYY-MM-01T00:00:00Z]
    of the month before the invocation month and of the invocation
    month: midnight of the first day of each, Z-suffixed, the bounds of
    the half-open interval [[start, end)]. *)
Theorem previous_month_range_bounds (now_utc : datetime) :
  valid_datetime now_utc →
  (year now_utc, month now_utc) ≠ (1%Z, 1%Z) →
  previous_month_range now_utc
  = Returned
      (first_of_month_stamp (month_before (year now_utc) (month now_utc)),
       first_of_month_stamp (year now_utc, month now_utc)).
Proof.
  intros (Hy & Hm & _) Hne. unfold previous_month_range.
  destruct (minus_one_day_first now_utc) as (last & -> & Hprev & _);
    [lia | |].
  - destruct (decide (year now_utc = 1%Z)) as [Hy1|]; [|lia].
    destruct (decide (month now_utc = 1%Z)) as [Hm1|]; [|lia].
    exfalso. apply Hne. by rewrite Hy1, Hm1.
  - rewrite !isoformat_first_midnight, Hprev. reflexivity.
Qed.

Lemma previous_month_range_bounds_witness :
  previous_month_range mid_march_2024
  = Returned ("2024-02-01T00:00:00Z", "2024-03-01T00:00:00Z").
Proof.
  apply (previous_month_range_bounds mid_march_2024).
  - unfold valid_datetime. vm_compute. repeat split; discriminate.
  - vm_compute. discriminate.
Defined.

(** ** The cost row aggregator *)

Section Aggregator.
Variable to_float : string → option Q.
Variables rg_idx cost_idx : nat.

Local Abbreviation step := (cost_row_step to_float rg_idx cost_idx).
Local Abbreviation fold := (fold_cost_rows to_float rg_idx cost_idx).
Local Abbreviation key_of := (row_key rg_idx).
Local Abbreviation cost_of := (row_cost to_float cost_idx).
Local Abbreviation under := (costs_under to_float rg_idx cost_idx).

(** The loop body runs through exactly on the rows that have a key and
    a cost, and then adds the cost to the entry of the key. *)
Lemma cost_row_step_returned (out out' : gmap string Q) (r : list cell) :
  step out r = Returned out'
  ↔ ∃ k c, key_of r = Returned k ∧ cost_of r = Returned c
           ∧ out' = <[k := default 0 (out !! k) + c]> out.
Proof.
  unfold cost_row_step, row_key, row_cost, index.
  destruct (r !! rg_idx) as [rg|]; cbn;
    [|split; [discriminate | intros (? & ? & [=] & _)]].
  destruct (r !! cost_idx) as [cc|]; cbn;
    [|split; [discriminate | intros (? & ? & _ & [=] & _)]].
  destruct (cost_value to_float cc) as [c|e]; cbn;
    [|split; [discriminate | intros (? & ? & _ & [=] & _)]].
  destruct (lower_value (rg_value rg)) as [k|e]; cbn;
    [|split; [discriminate | intros (? & ? & [=] & _)]].
  split.
  - intros [= <-]. by exists k, c.
  - intros (k' & c' & [= <-] & [= <-] & ->). reflexivity.
Qed.

Lemma costs_under_cons (k : string) (r : list cell)
    (rows : list (list cell)) (k' : string) (c : Q) :
  key_of r = Returned k' → cost_of r = Returned c →
  under k (r :: rows)
  = if decide (k' = k) then c :: under k rows else under k rows.
Proof. intros Hk Hc. cbn [costs_under]. by rewrite Hk, Hc. Qed.

(** The entry of a key after the loop: untouched when no row is filed
    under the key, and otherwise the old value (or 0.0) plus the costs
    of those rows, added in row order. *)
Lemma fold_cost_rows_lookup (rows : list (list cell))
    (out0 out : gmap string Q) (k : string) :
  fold rows out0 = Returned out →
  out !! k = match under k rows with
             | [] => out0 !! k
             | cs => Some (fold_left Qplus cs (default 0 (out0 !! k)))
             end.
Proof.
  revert out0. induction rows as [|r rows IH]; intros out0; cbn [fold_cost_rows].
  - by intros [= ->].
  - destruct (step out0 r) as [out1|e] eqn:Hstep;
      cbn [mbind completion_bind bind]; [|discriminate].
    apply cost_row_step_returned in Hstep as (k' & c & Hk & Hc & ->).
    intros Hfold. rewrite (IH _ Hfold), (costs_under_cons k r rows k' c Hk Hc).
    destruct (decide (k' = k)) as [->|Hne].
    + rewrite lookup_insert_eq. cbn [default].
      by destruct (under k rows).
    + by rewrite lookup_insert_ne.
Qed.

Lemma fold_cost_rows_total (rows : list (list cell)) (out0 : gmap string Q) :
  (∀ r, r ∈ rows → ∃ k c, key_of r = Returned k ∧ cost_of r = Returned c) →
  ∃ out, fold rows out0 = Returned out.
Proof.
  revert out0. induction rows as [|r rows IH]; intros out0 Hrows;
    cbn [fold_cost_rows].
  - by eexists.
  - destruct (Hrows r) as (k & c & Hk & Hc); [left|].
    assert (Hstep : step out0 r
                    = Returned (<[k := default 0 (out0 !! k) + c]> out0)).
    { apply cost_row_step_returned. by exists k, c. }
    rewrite Hstep. cbn. apply IH. intros r' Hr'. apply Hrows. by right.
Qed.

(** Two rows under one key: the mapping has that key only, with the two
    costs added to 0.0 in row order. *)
Lemma fold_two_rows (r1 r2 : list cell) (k : string) (c1 c2 : Q) :
  key_of r1 = Returned k → cost_of r1 = Returned c1 →
  key_of r2 = Returned k → cost_of r2 = Returned c2 →
  fold [r1; r2] ∅ = Returned {[ k := 0 + c1 + c2 ]}.
Proof.
  intros Hk1 Hc1 Hk2 Hc2. cbn [fold_cost_rows].
  rewrite (proj2 (cost_row_step_returned ∅ _ r1)
             (ex_intro _ k (ex_intro _ c1 (conj Hk1 (conj Hc1 eq_refl))))).
  cbn [mbind completion_bind bind].
  rewrite (proj2 (cost_row_step_returned _ _ r2)
             (ex_intro _ k (ex_intro _ c2 (conj Hk2 (conj Hc2 eq_refl))))).
  cbn [mbind completion_bind bind].
  rewrite lookup_empty, lookup_insert_eq. cbn [default].
  by rewrite insert_insert_eq, insert_empty.
Qed.

(** C8: the aggregator files every row under the lower-cased
    resource-group name (1), and a null or empty cost counts as 0.0 (2).
    After the loop a key is present exactly when some row is filed under
    it, and its value is the sum of the costs of those rows (3); so two
    rows whose names differ only in casing give a single key, with the sum
    of their two costs (4). The loop runs through whenever every row has a
    name and a cost (5). *)
Theorem rows_merged_under_lowercase_key (rows : list (list cell)) :
  (∀ r name, r !! rg_idx = Some (CStr name) →
             key_of r = Returned (lower name))
  ∧ (∀ r, r !! cost_idx = Some CNull ∨ r !! cost_idx = Some (CStr "") →
          cost_of r = Returned 0)
  ∧ (∀ out, fold rows ∅ = Returned out →
       ∀ k, out !! k = match under k rows with
                       | [] => None
                       | cs => Some (sum_costs cs)
                       end)
  ∧ (∀ r1 r2 name1 name2 c1 c2,
        r1 !! rg_idx = Some (CStr name1) → r2 !! rg_idx = Some (CStr name2) →
        lower name1 = lower name2 →
        cost_of r1 = Returned c1 → cost_of r2 = Returned c2 →
        fold [r1; r2] ∅ = Returned {[ lower name1 := 0 + c1 + c2 ]})
  ∧ ((∀ r, r ∈ rows →
           ∃ k c, key_of r = Returned k ∧ cost_of r = Returned c) →
     ∃ out, fold rows ∅ = Returned out).
Proof.
  assert (Hkey : ∀ r name, r !! rg_idx = Some (CStr name) →
                           key_of r = Returned (lower name)).
  { intros r name Hr. unfold row_key, index. by rewrite Hr. }
  split; [exact Hkey|]. split; [|split; [|split]].
  - intros r [Hr|Hr]; unfold row_cost, index; by rewrite Hr.
  - intros out Hfold k.
    rewrite (fold_cost_rows_lookup rows ∅ out k Hfold), lookup_empty.
    reflexivity.
  - intros r1 r2 name1 name2 c1 c2 Hr1 Hr2 Hlow Hc1 Hc2.
    apply fold_two_rows; [by apply Hkey | exact Hc1 | | exact Hc2].
    rewrite Hlow. by apply Hkey.
  - apply fold_cost_rows_total.
Qed.

End Aggregator.

Lemma rows_merged_under_lowercase_key_witness :
  ∃ out,
    fold_cost_rows float_of_digits 1 0 (rows resp_rg1) ∅ = Returned out
    ∧ out !! "rg1" = Some (sum_costs [float_12_345; 0])
    ∧ out !! "RG1" = None.
Proof.
  destruct (rows_merged_under_lowercase_key float_of_digits 1 0 (rows resp_rg1))
    as (_ & _ & Hsum & _ & Htotal).
  destruct Htotal as [out Hout].
  - intros r Hr. vm_compute in Hr.
    apply elem_of_cons in Hr as [->|Hr]; [by eexists _, _|].
    apply elem_of_cons in Hr as [->|Hr]; [by eexists _, _|].
    inversion Hr.
  - exists out. split; [exact Hout|].
    split; [exact (Hsum out Hout "rg1") | exact (Hsum out Hout "RG1")].
Defined.

(** ** The resilient executor *)

Section Executor.
Variable to_float : string → option Q.
Variable usage : nat → string → string * string → completion Response.
Variable random : nat → Q.
Variables (scope : string) (period : string * string).
Variables (max_retries : Z) (base_sleep : Q).

Local Abbreviation loop :=
  (retry_loop to_float usage random).

(** The number of calls the loop can still make when it is entered
    with [attempt]. *)
Local Abbreviation calls_left attempt :=
  (Z.to_nat (Z.max 1 (max_retries - attempt))).

(** The loop from [attempt], with enough fuel: it makes [n] calls, all
    but the last of which fail transiently, and ends on the outcome of
    the last one. *)
Lemma retry_loop_outcome (fuel : nat) :
  ∀ (attempt : Z) (w : world),
    (calls_left attempt ≤ fuel)%nat →
    ∃ (n : nat) (out : completion Response) (w' : world),
      loop fuel scope period max_retries base_sleep attempt w = Some (out, w')
      ∧ (1 ≤ n ≤ calls_left attempt)%nat
      ∧ n_calls w' = (n_calls w + n)%nat
      ∧ (∀ i, (i < n - 1)%nat →
              ∃ e, usage (n_calls w + i)%nat scope period = Raised e
                   ∧ transient_exn e = true)
      ∧ ((∃ resp, usage (n_calls w + (n - 1))%nat scope period = Returned resp
                  ∧ out = Returned resp)
         ∨ (∃ e, usage (n_calls w + (n - 1))%nat scope period = Raised e
                 ∧ transient_exn e = false ∧ out = Raised e)
         ∨ (∃ e, usage (n_calls w + (n - 1))%nat scope period = Raised e
                 ∧ transient_exn e = true ∧ n = calls_left attempt
                 ∧ out = Raised e)).
Proof.
  induction fuel as [|fuel IH]; intros attempt w Hfuel; [lia|].
  cbn [retry_loop].
  assert (Hlast : (n_calls w + (1 - 1) = n_calls w)%nat) by lia.
  destruct (usage (n_calls w) scope period) as [resp|e] eqn:Hcall.
  { exists 1%nat. do 2 eexists. split; [reflexivity|].
    cbn [n_calls]. rewrite Hlast.
    repeat split; [lia | lia | lia | intros i Hi; lia |].
    left. by exists resp. }
  assert (Hstop : transient_exn e = false →
            ∃ (n : nat) (out : completion Response) (w' : world),
              Some (Raised e,
                    {| n_calls := S (n_calls w); n_draws := n_draws w;
                       slept := slept w |}) = Some (out, w')
              ∧ (1 ≤ n ≤ calls_left attempt)%nat
              ∧ n_calls w' = (n_calls w + n)%nat
              ∧ (∀ i, (i < n - 1)%nat →
                      ∃ e, usage (n_calls w + i)%nat scope period = Raised e
                           ∧ transient_exn e = true)
              ∧ ((∃ resp, usage (n_calls w + (n - 1))%nat scope period
                          = Returned resp ∧ out = Returned resp)
                 ∨ (∃ e, usage (n_calls w + (n - 1))%nat scope period
                         = Raised e
                         ∧ transient_exn e = false ∧ out = Raised e)
                 ∨ (∃ e, usage (n_calls w + (n - 1))%nat scope period
                         = Raised e
                         ∧ transient_exn e = true ∧ n = calls_left attempt
                         ∧ out = Raised e))).
  { intros Hnt. exists 1%nat. do 2 eexists. split; [reflexivity|].
    cbn [n_calls]. rewrite Hlast.
    repeat split; [lia | lia | lia | intros i Hi; lia |].
    right. left. by exists e. }
  destruct e as [status_code headers_map|msg|class];
    [|by apply Hstop..].
  destruct (is_transient status_code) eqn:Htr; [|by apply Hstop].
  clear Hstop.
  destruct (Z.leb_spec max_retries (attempt + 1)) as [Hmax|Hmore].
  - exists 1%nat. do 2 eexists. split; [reflexivity|].
    cbn [n_calls]. rewrite Hlast.
    repeat split; [lia | lia | lia | intros i Hi; lia |].
    right. right. eexists. repeat split; [exact Hcall | exact Htr | lia].
  - match goal with
    | |- context [loop fuel _ _ _ _ _ ?w2] =>
        destruct (IH (attempt + 1)%Z w2) as
          (n & out & w' & Hrun & Hn & Hcalls & Hearly & Hend); [lia|]
    end.
    cbn [n_calls] in Hcalls, Hearly, Hend.
    exists (S n), out, w'. split; [exact Hrun|].
    assert (Hidx : (n_calls w + (S n - 1) = S (n_calls w) + (n - 1))%nat)
      by lia.
    rewrite Hidx.
    repeat split; [lia | lia | lia | |].
    + intros [|i] Hi.
      * rewrite Nat.add_0_r. eexists. split; [exact Hcall | exact Htr].
      * replace (n_calls w + S i)%nat with (S (n_calls w) + i)%nat by lia.
        apply Hearly. lia.
    + destruct Hend as [Hend|[Hend|(e & He & Het & Hnn & Hout)]];
        [by left | by right; left |].
      right. right. exists e. repeat split; [exact He | exact Het | lia | exact Hout].
Qed.

(** Every duration the loop sleeps is a wait of [retry_wait] plus the
    jitter drawn for it. *)
Lemma retry_loop_slept (fuel : nat) :
  ∀ (attempt : Z) (w w' : world) (out : completion Response),
    loop fuel scope period max_retries base_sleep attempt w = Some (out, w') →
    ∃ waits : list (Q * Q),
      slept w' = slept w ++ map (λ p, sleep_duration p.1 p.2) waits
      ∧ Forall (λ p, (∃ headers_map a,
                         p.1 = retry_wait to_float headers_map base_sleep a)
                     ∧ ∃ k, p.2 = random k) waits.
Proof.
  induction fuel as [|fuel IH]; intros attempt w w' out; [discriminate|].
  cbn [retry_loop].
  assert (Hnone : ∀ o,
            Some (o, {| n_calls := S (n_calls w); n_draws := n_draws w;
                        slept := slept w |}) = Some (out, w') →
            ∃ waits : list (Q * Q),
              slept w' = slept w ++ map (λ p, sleep_duration p.1 p.2) waits
              ∧ Forall (λ p, (∃ headers_map a,
                                 p.1 = retry_wait to_float headers_map
                                         base_sleep a)
                             ∧ ∃ k, p.2 = random k) waits).
  { intros o [= _ <-]. exists []. cbn. by rewrite app_nil_r. }
  destruct (usage (n_calls w) scope period) as [resp|e]; [by apply Hnone|].
  destruct e as [status_code headers_map|msg|class]; [|by apply Hnone..].
  destruct (is_transient status_code); [|by apply Hnone].
  clear Hnone.
  set (wait := retry_wait to_float headers_map base_sleep attempt).
  assert (Hthis : (∃ headers_map a,
                      (wait, random (n_draws w)).1
                      = retry_wait to_float headers_map base_sleep a)
                  ∧ ∃ k, (wait, random (n_draws w)).2 = random k)
    by (split; [by exists headers_map, attempt | by eexists]).
  destruct (max_retries <=? attempt + 1)%Z.
  - intros [= _ <-]. exists [(wait, random (n_draws w))].
    split; [reflexivity | by constructor].
  - intros Hrun. apply IH in Hrun as (waits & -> & Hwaits).
    exists ((wait, random (n_draws w)) :: waits).
    split; [|by constructor]. cbn [slept map]. by rewrite <- List.app_assoc.
Qed.


End Executor.

(** ** The record loop *)

Lemma lower_ascii_idemp (c : ascii) : lower_ascii (lower_ascii c) = lower_ascii c.
Proof. destruct c as [[] [] [] [] [] [] [] []]; reflexivity. Qed.

Lemma lower_idemp (s : string) : lower (lower s) = lower s.
Proof.
  induction s as [|c s IH]; [reflexivity|].
  cbn [lower]. by rewrite lower_ascii_idemp, IH.
Qed.

Lemma round2_zero : round2 0 = 0.
Proof. reflexivity. Qed.

Section Records.
Variable to_float : string → option Q.
Variable usage : nat → string → string * string → completion Response.
Variable random : nat → Q.
Variables start_iso end_iso : string.
Variables (maxretries : Z) (pause : Q).

Local Abbreviation query :=
  (query_rg_costs_for_subscription to_float usage random).
Local Abbreviation run :=
  (λ targets, main_loop to_float usage random targets start_iso end_iso
                maxretries pause).
Local Abbreviation answered :=
  (λ targets, queried to_float usage random targets start_iso end_iso
                maxretries pause).
Local Abbreviation records_of sub rg_costs :=
  (records_for (id sub) start_iso end_iso rg_costs
     (map lower (resource_groups sub))).

Lemma query_total (sub_id : string) (w : world) :
  ∃ out w', query sub_id start_iso end_iso maxretries w = Some (out, w').
Proof.
  unfold query_rg_costs_for_subscription, usage_with_retry.
  destruct (retry_loop_outcome to_float usage random
              ("/subscriptions/" +:+ sub_id) (start_iso, end_iso)
              maxretries 2 (S (Z.to_nat maxretries)) 0 w)
    as (n & out & w' & -> & _); [lia|].
  destruct out; by do 2 eexists.
Qed.

(** The loop never runs out of fuel: it returns the records or raises. *)
Lemma main_loop_total (targets : list Target) :
  ∀ (records : list CostRecord) (w : world),
    ∃ out w', run targets records w = Some (out, w').
Proof.
  induction targets as [|sub targets IH]; intros records w; cbn [main_loop].
  - by do 2 eexists.
  - destruct (query_total (id sub) w) as ([rg_costs|e] & w' & ->).
    + apply IH.
    + by do 2 eexists.
Qed.

(** When the loop returns, every query has succeeded, and the records
    are those collected before, followed by the records of each target,
    in order. *)
Lemma main_loop_records (targets : list Target) :
  ∀ (records0 records : list CostRecord) (w w' : world),
    run targets records0 w = Some (Returned records, w') →
    ∃ results,
      answered targets w results
      ∧ records = records0 ++ concat (zip_with (λ sub rg_costs,
                                                 records_of sub rg_costs)
                                       targets results).
Proof.
  induction targets as [|sub targets IH]; intros records0 records w w';
    cbn [main_loop].
  - intros [= <- <-]. exists []. split; [exact I|].
    cbn. by rewrite app_nil_r.
  - destruct (query (id sub) start_iso end_iso maxretries w)
      as [[[rg_costs|e] w1]|] eqn:Hq; [|discriminate..].
    intros Hrun. apply IH in Hrun as (results & Hans & ->).
    exists (rg_costs :: results). split.
    + cbn [queried]. exists w1. by split.
    + cbn [zip_with concat]. by rewrite <- List.app_assoc.
Qed.

Lemma main_loop_answered (targets : list Target) :
  ∀ (records0 : list CostRecord) (w : world) (results : list (gmap string Q)),
    answered targets w results →
    ∃ w', run targets records0 w
          = Some (Returned (records0
                            ++ concat (zip_with (λ sub rg_costs,
                                                   records_of sub rg_costs)
                                         targets results)), w').
Proof.
  induction targets as [|sub targets IH]; intros records0 w [|rg_costs results];
    cbn [queried main_loop]; try done.
  - intros _. exists w. cbn. by rewrite app_nil_r.
  - intros (w1 & -> & Hans).
    destruct (IH (records0 ++ records_of sub rg_costs) _ _ Hans) as [w' ->].
    exists w'. cbn [zip_with concat]. by rewrite <- List.app_assoc.
Qed.

Lemma answered_length (targets : list Target) :
  ∀ (w : world) (results : list (gmap string Q)),
    answered targets w results → length results = length targets.
Proof.
  induction targets as [|sub targets IH]; intros w [|rg_costs results];
    cbn [queried]; try done.
  intros (w1 & _ & Hans). cbn [length]. f_equal. by eapply IH.
Qed.

Lemma records_of_pairs (sub : Target) (rg_costs : gmap string Q)
    (rgs : list string) :
  Forall2 (record_of_pair start_iso end_iso)
    (map (λ rg, (sub, rg, rg_costs)) rgs)
    (records_for (id sub) start_iso end_iso rg_costs (map lower rgs)).
Proof.
  induction rgs as [|rg rgs IH]; cbn [map records_for]; constructor;
    [|exact IH].
  cbn [record_of_pair subscription_id resource_group start end_ total_cost].
  repeat split. by destruct (rg_costs !! lower rg).
Qed.

Lemma all_records_of_pairs (targets : list Target)
    (results : list (gmap string Q)) :
  Forall2 (record_of_pair start_iso end_iso)
    (requested_pairs targets results)
    (concat (zip_with (λ sub rg_costs, records_of sub rg_costs)
               targets results)).
Proof.
  unfold requested_pairs. revert results.
  induction targets as [|sub targets IH]; intros [|rg_costs results];
    cbn [zip_with concat]; try constructor.
  apply Forall2_app; [apply records_of_pairs | apply IH].
Qed.

(** C3: when the record loop returns, every query has succeeded, and
    the records correspond one to one, in order, to the (subscription,
    requested resource group) pairs of the configuration: the record of
    a pair carries the subscription id, the lower-cased group, the
    period and, as [total_cost], the queried cost of the group rounded
    to two decimals when the query has a row for it and 0.0 when it has
    none; no pair is dropped and no record is added. Conversely, when
    all the queries succeed the loop returns such records. Rounding
    takes [12.345] to [12.35] and leaves [0.0]. *)
Theorem every_requested_pair_recorded (targets : list Target) (w : world) :
  (∀ records w',
      run targets [] w = Some (Returned records, w') →
      ∃ results,
        answered targets w results
        ∧ Forall2 (record_of_pair start_iso end_iso)
            (requested_pairs targets results) records)
  ∧ (∀ results,
        answered targets w results →
        ∃ records w',
          run targets [] w = Some (Returned records, w')
          ∧ Forall2 (record_of_pair start_iso end_iso)
              (requested_pairs targets results) records)
  ∧ (∃ out w', run targets [] w = Some (out, w'))
  ∧ round2 float_12_345 == 1235 # 100
  ∧ round2 0 = 0.
Proof.
  split; [|split; [|split; [|split]]].
  - intros records w' Hrun.
    apply main_loop_records in Hrun as (results & Hans & ->).
    exists results. split; [exact Hans|]. apply all_records_of_pairs.
  - intros results Hans.
    destruct (main_loop_answered targets [] w results Hans) as [w' Hrun].
    do 2 eexists. split; [exact Hrun|]. apply all_records_of_pairs.
  - apply main_loop_total.
  - reflexivity.
  - exact round2_zero.
Qed.

Lemma answered_groups (targets : list Target) :
  ∀ (w : world) (results : list (gmap string Q)),
    answered targets w results →
    map resource_group
      (concat (zip_with (λ sub rg_costs, records_of sub rg_costs)
                 targets results))
    = map lower (flat_map resource_groups targets).
Proof.
  induction targets as [|sub targets IH]; intros w [|rg_costs results];
    cbn [queried]; try done.
  intros (w1 & _ & Hans).
  cbn [zip_with concat flat_map]. rewrite !map_app, (IH _ _ Hans).
  f_equal. unfold records_for. rewrite map_map. apply List.map_id.
Qed.

(** C10: in the records the loop returns, the [resource_group] fields
    are, in order, the lower-cased names the configuration requests;
    each field is therefore in lower case, whatever casing the
    configuration used. *)
Theorem resource_group_lowercased (targets : list Target) (w w' : world)
    (records : list CostRecord) :
  run targets [] w = Some (Returned records, w') →
  map resource_group records
  = map lower (flat_map resource_groups targets)
  ∧ Forall (λ rec, lower (resource_group rec) = resource_group rec) records.
Proof.
  intros Hrun.
  apply main_loop_records in Hrun as (results & Hans & ->).
  cbn [app].
  assert (Hgroups := answered_groups targets w results Hans).
  split; [exact Hgroups|].
  apply List.Forall_forall. intros rec Hrec.
  assert (Hin : In (resource_group rec)
                  (map lower (flat_map resource_groups targets))).
  { rewrite <- Hgroups. by apply in_map. }
  apply in_map_iff in Hin as (rg & <- & _). apply lower_idemp.
Qed.

End Records.

Lemma every_requested_pair_recorded_witness :
  ∃ records,
    (∃ results,
        queried float_of_digits throttled_twice half config_rg1_rg2
          "2024-02-01T00:00:00Z" "2024-03-01T00:00:00Z" 8 1 world_init results
        ∧ Forall2 (record_of_pair "2024-02-01T00:00:00Z" "2024-03-01T00:00:00Z")
            (requested_pairs config_rg1_rg2 results) records)
    ∧ map resource_group records = ["rg1"; "rg2"]
    ∧ map total_cost records = [Qred (1235 # 100); 0].
Proof.
  eexists. split; [|split].
  - eapply (every_requested_pair_recorded float_of_digits throttled_twice half
              "2024-02-01T00:00:00Z" "2024-03-01T00:00:00Z" 8 1
              config_rg1_rg2 world_init).
    reflexivity.
  - reflexivity.
  - reflexivity.
Defined.

Lemma resource_group_lowercased_witness :
  ∃ records w',
    main_loop float_of_digits answers_at_once half config_mixed_case
      "2024-02-01T00:00:00Z" "2024-03-01T00:00:00Z" 8 1 [] world_init
    = Some (Returned records, w')
    ∧ map resource_group records = ["rg1"; "rg2"].
Proof.
  eexists _, _. split; [reflexivity|].
  refine (proj1 (resource_group_lowercased float_of_digits answers_at_once
                   half "2024-02-01T00:00:00Z" "2024-03-01T00:00:00Z" 8 1
                   config_mixed_case world_init _ _ eq_refl)).
Defined.

(** ** The executor on three remote sides *)

(** Two transient failures, then an answer: three calls, two sleeps, the
    first for the hinted 120 seconds and the second for the backoff of
    the second attempt, each with its jitter. *)
Example retried_then_answered :
  usage_with_retry float_of_digits throttled_twice half "/subscriptions/s1"
    ("2024-02-01T00:00:00Z", "2024-03-01T00:00:00Z") 8 2 world_init
  = Some (Returned resp_rg1,
          {| n_calls := 3; n_draws := 2;
             slept := [ sleep_duration 120 (1 # 2);
                        sleep_duration (pymin (2 * inject_Z (2 ^ 1)) 60)
                          (1 # 2) ] |}).
Proof. reflexivity. Qed.

(** Three transient failures with [max_retries = 3]: the third error is
    raised after the third sleep. *)
Example retries_exhausted :
  ∃ w',
    usage_with_retry float_of_digits always_throttled half "/subscriptions/s1"
      ("2024-02-01T00:00:00Z", "2024-03-01T00:00:00Z") 3 2 world_init
    = Some (Raised (HttpResponseError (Some 429%Z) ∅), w')
    ∧ n_calls w' = 3%nat ∧ length (slept w') = 3%nat.
Proof. eexists. split; [reflexivity|]. split; reflexivity. Qed.

(** A refusal is raised on the spot: one call, no sleep. *)
Example refusal_not_retried :
  usage_with_retry float_of_digits refused half "/subscriptions/s1"
    ("2024-02-01T00:00:00Z", "2024-03-01T00:00:00Z") 8 2 world_init
  = Some (Raised (HttpResponseError (Some 403%Z) ∅),
          {| n_calls := 1; n_draws := 0; slept := [] |}).
Proof. reflexivity. Qed.

(** The backoff waits of the eight attempts of a default run. *)
Example backoff_schedule :
  map (retry_wait float_of_digits ∅ 2) [0; 1; 2; 3; 4; 5; 6; 7]%Z
  = [2; 4; 8; 16; 32; 60; 60; 60].
Proof. reflexivity. Qed.

End PullMonthlySpec.

(** * Further properties of the subscription resolver script *)

Module PreparationMainSpec.
Import PyStr Preparation PreparationMain.

(** ** Stripping *)

Lemma lstrip_head (s : string) :
  lstrip s = "" ∨ ∃ c r, lstrip s = String c r ∧ is_space c = false.
Proof.
  induction s as [|c s IH]; [by left|].
  cbn [lstrip]. destruct (is_space c) eqn:Hc; [exact IH|].
  right. by exists c, s.
Qed.

Lemma lstrip_fixed (c : ascii) (r : string) :
  is_space c = false → lstrip (String c r) = String c r.
Proof. intros Hc. cbn [lstrip]. by rewrite Hc. Qed.

Lemma rstrip_head (c : ascii) (r : string) :
  is_space c = false → ∃ r', rstrip (String c r) = String c r'.
Proof.
  intros Hc. cbn [rstrip]. destruct (rstrip r); [|by eexists].
  rewrite Hc. by eexists.
Qed.

Lemma rstrip_idemp (s : string) : rstrip (rstrip s) = rstrip s.
Proof.
  induction s as [|c s IH]; [reflexivity|].
  cbn [rstrip]. destruct (rstrip s) as [|c' x] eqn:Hx.
  - destruct (is_space c) eqn:Hc; [reflexivity|].
    cbn [rstrip]. by rewrite Hc.
  - cbn [rstrip]. cbn [rstrip] in IH. by rewrite IH.
Qed.

(** Stripping a stripped string changes nothing. *)
Lemma strip_idemp (s : string) : strip (strip s) = strip s.
Proof.
  unfold strip.
  destruct (lstrip_head s) as [->|(c & r & -> & Hc)]; [reflexivity|].
  destruct (rstrip_head c r Hc) as [r' Hr'].
  rewrite Hr', (lstrip_fixed c r' Hc), <- Hr'. apply rstrip_idemp.
Qed.

Lemma truthy_nonempty (s : string) : truthy (Some s) = true ↔ s ≠ "".
Proof. destruct s; cbn; split; try done. Qed.

(** ** detect_headers *)

Lemma lower_map_snoc (fields : list string) (f : string) :
  lower_map (fields ++ [f]) = <[lower (strip f) := f]> (lower_map fields).
Proof. unfold lower_map. by rewrite fold_left_app. Qed.

(** The entry of a normalised name is the last field that has it. *)
Lemma lower_map_last (l1 l2 : list string) (f : string) :
  (∀ f', f' ∈ l2 → lower (strip f') ≠ lower (strip f)) →
  lower_map (l1 ++ f :: l2) !! lower (strip f) = Some f.
Proof.
  induction l2 as [|x l2 IH] using rev_ind; intros Hl2.
  - rewrite lower_map_snoc. apply lookup_insert_eq.
  - replace (l1 ++ f :: l2 ++ [x]) with ((l1 ++ f :: l2) ++ [x])
      by (by rewrite <- List.app_assoc).
    rewrite lower_map_snoc, lookup_insert_ne.
    + apply IH. intros f' Hf'. apply Hl2, elem_of_app. by left.
    + apply Hl2, elem_of_app. right. by left.
Qed.

Lemma lower_map_Some (fields : list string) (k f : string) :
  lower_map fields !! k = Some f → f ∈ fields ∧ lower (strip f) = k.
Proof.
  induction fields as [|x fields IH] using rev_ind.
  - unfold lower_map. cbn. by rewrite lookup_empty.
  - rewrite lower_map_snoc.
    destruct (decide (lower (strip x) = k)) as [<-|Hne].
    + rewrite lookup_insert_eq. intros [= <-]. split; [|done].
      apply elem_of_app. right. by left.
    + rewrite lookup_insert_ne by done. intros Hk.
      destruct (IH Hk) as [Hin Hkey]. split; [|done].
      apply elem_of_app. by left.
Qed.

Lemma lower_map_None (fields : list string) (k : string) :
  lower_map fields !! k = None ↔ ∀ f, f ∈ fields → lower (strip f) ≠ k.
Proof.
  induction fields as [|x fields IH] using rev_ind.
  - split; [intros _ f Hf; inversion Hf | intros _; apply lookup_empty].
  - rewrite lower_map_snoc. split.
    + intros Hk f Hf.
      destruct (decide (lower (strip x) = k)) as [<-|Hne];
        [by rewrite lookup_insert_eq in Hk|].
      rewrite lookup_insert_ne in Hk by done.
      apply elem_of_app in Hf as [Hf|Hf]; [by apply IH|].
      apply list_elem_of_singleton in Hf as ->. done.
    + intros Hall. rewrite lookup_insert_ne.
      * apply IH. intros f Hf. apply Hall, elem_of_app. by left.
      * apply Hall, elem_of_app. right. by left.
Qed.

Lemma filter_truthy_elem (fieldnames : list string) (f : string) :
  f ∈ List.filter (λ f, truthy (Some f)) fieldnames ↔ f ∈ fieldnames ∧ f ≠ "".
Proof.
  rewrite !list_elem_of_In, filter_In. by rewrite truthy_nonempty.
Qed.

(** X1: [detect_headers] finds the two columns whatever the casing of the
    header line and the blanks around the names. When it returns, the two
    names are headers of the file whose stripped, lower-cased forms are
    [subscription] and [resource_group]; it raises exactly when no header
    normalises to one of the two names. *)
Theorem detect_headers_case_insensitive (fieldnames : list string) :
  (∀ sub_header rg_header,
      detect_headers fieldnames = Some (sub_header, rg_header) →
      sub_header ∈ fieldnames ∧ rg_header ∈ fieldnames
      ∧ lower (strip sub_header) = "subscription"
      ∧ lower (strip rg_header) = "resource_group")
  ∧ (detect_headers fieldnames = None
     ↔ (∀ f, f ∈ fieldnames → lower (strip f) ≠ "subscription")
       ∨ (∀ f, f ∈ fieldnames → lower (strip f) ≠ "resource_group")).
Proof.
  unfold detect_headers. cbn [HEADERS_CANDIDATES first_candidate].
  set (fields := List.filter (λ f, truthy (Some f)) fieldnames).
  assert (Hnone : ∀ k, k ≠ "" →
            (lower_map fields !! k = None
             ↔ ∀ f, f ∈ fieldnames → lower (strip f) ≠ k)).
  { intros k Hk. rewrite lower_map_None. split.
    - intros Hall f Hf. destruct (decide (f = "")) as [->|Hne].
      + intros Heq. apply Hk. by rewrite <- Heq.
      + apply Hall, filter_truthy_elem. by split.
    - intros Hall f Hf. apply Hall. by apply filter_truthy_elem in Hf as []. }
  split.
  - intros sub_header rg_header.
    destruct (lower_map fields !! "subscription") as [s|] eqn:Hs; [|discriminate].
    destruct (lower_map fields !! "resource_group") as [r|] eqn:Hr;
      [|discriminate].
    intros [= <- <-].
    apply lower_map_Some in Hs as [Hs1 Hs2], Hr as [Hr1 Hr2].
    apply filter_truthy_elem in Hs1 as [Hs1 _], Hr1 as [Hr1 _]. done.
  - rewrite <- !Hnone by done.
    destruct (lower_map fields !! "subscription") as [s|];
      destruct (lower_map fields !! "resource_group") as [r|];
      split; try done; try (by left); try (by right); by intros [|].
Qed.

(** X2: when several headers normalise to the same name, the last one is
    used: the header returned for a column is the last field of the header
    line whose stripped, lower-cased form is the column's name. *)
Theorem detect_headers_last_wins (before after : list string)
    (sub_header rg_header found_sub found_rg : string) :
  lower (strip sub_header) = "subscription" →
  (∀ f, f ∈ after → lower (strip f) ≠ "subscription") →
  detect_headers (before ++ sub_header :: after) = Some (found_sub, found_rg) →
  found_sub = sub_header.
Proof.
  intros Hnorm Hafter. unfold detect_headers.
  cbn [HEADERS_CANDIDATES first_candidate].
  rewrite List.filter_app. cbn [List.filter].
  assert (Htr : truthy (Some sub_header) = true).
  { apply truthy_nonempty. intros ->. discriminate Hnorm. }
  rewrite Htr.
  rewrite <- Hnorm at 1. rewrite lower_map_last.
  - destruct (lower_map _ !! "resource_group"); [|discriminate]. by intros [= <- _].
  - intros f' Hf'. rewrite Hnorm. apply Hafter.
    by apply filter_truthy_elem in Hf' as [].
Qed.

Lemma detect_headers_last_wins_witness :
  detect_headers ["subscription"; "resource_group"; " Subscription "]
  = Some (" Subscription ", "resource_group")
  ∧ " Subscription " = " Subscription ".
Proof.
  split; [reflexivity|].
  apply (detect_headers_last_wins ["subscription"; "resource_group"] []
           " Subscription " "resource_group" " Subscription " "resource_group").
  - reflexivity.
  - intros f Hf. inversion Hf.
  - reflexivity.
Defined.

(** ** load_rows *)

Lemma load_row_Some (sub_col rg_col : string) (row : gmap string string)
    (sub_raw rg : string) :
  load_row sub_col rg_col row = Some (sub_raw, rg)
  ↔ sub_raw = strip (or_empty (row !! sub_col))
    ∧ rg = strip (or_empty (row !! rg_col))
    ∧ sub_raw ≠ "" ∧ rg ≠ "".
Proof.
  unfold load_row.
  destruct (truthy (Some (strip (or_empty (row !! sub_col))))) eqn:Hs;
    destruct (truthy (Some (strip (or_empty (row !! rg_col))))) eqn:Hr;
    cbn [negb orb].
  - apply truthy_nonempty in Hs, Hr. split.
    + by intros [= <- <-].
    + by intros (-> & -> & _).
  - split; [discriminate|]. intros (_ & -> & _ & Hne).
    apply truthy_nonempty in Hne. congruence.
  - split; [discriminate|]. intros (-> & _ & Hne & _).
    apply truthy_nonempty in Hne. congruence.
  - split; [discriminate|]. intros (-> & _ & Hne & _).
    apply truthy_nonempty in Hne. congruence.
Qed.

Lemma omap_length_le {A B : Type} (f : A → option B) (l : list A) :
  length (omap f l) ≤ length l.
Proof.
  induction l as [|x l IH]; [done|]. cbn. destruct (f x); cbn; lia.
Qed.

(** X3: every pair [load_rows] yields has a non-empty subscription token
    and a non-empty resource group, both free of surrounding blanks; the
    pairs are the stripped fields of the records that have both, in the
    order of the file, so a record with a blank or missing field is
    skipped and never more pairs than records are yielded. *)
Theorem load_rows_skips_blank (fieldnames : list string)
    (records : list (gmap string string)) (rows : list (string * string)) :
  load_rows fieldnames records = Some rows →
  Forall (λ row, row.1 ≠ "" ∧ row.2 ≠ ""
                 ∧ strip row.1 = row.1 ∧ strip row.2 = row.2) rows
  ∧ length rows ≤ length records
  ∧ ∃ sub_col rg_col,
      detect_headers fieldnames = Some (sub_col, rg_col)
      ∧ ∀ sub_raw rg,
          (sub_raw, rg) ∈ rows
          ↔ ∃ row, row ∈ records
                   ∧ sub_raw = strip (or_empty (row !! sub_col))
                   ∧ rg = strip (or_empty (row !! rg_col))
                   ∧ sub_raw ≠ "" ∧ rg ≠ "".
Proof.
  unfold load_rows.
  destruct (detect_headers fieldnames) as [[sub_col rg_col]|]; [|discriminate].
  intros [= <-].
  assert (Hchar : ∀ sub_raw rg,
            (sub_raw, rg) ∈ omap (load_row sub_col rg_col) records
            ↔ ∃ row, row ∈ records
                     ∧ sub_raw = strip (or_empty (row !! sub_col))
                     ∧ rg = strip (or_empty (row !! rg_col))
                     ∧ sub_raw ≠ "" ∧ rg ≠ "").
  { intros sub_raw rg. rewrite list_elem_of_omap.
    split; intros (row & Hrow & H); exists row; (split; [exact Hrow|]);
      by apply load_row_Some. }
  split; [|split].
  - apply Forall_forall. intros [sub_raw rg] Hin.
    apply Hchar in Hin as (row & _ & -> & -> & Hs & Hr).
    cbn [fst snd]. by rewrite !strip_idemp.
  - apply omap_length_le.
  - by exists sub_col, rg_col.
Qed.

Lemma load_rows_skips_blank_witness :
  load_rows csv_header csv_records = Some [("SubA", "rg1")]
  ∧ Forall (λ row, row.1 ≠ "" ∧ row.2 ≠ ""
                   ∧ strip row.1 = row.1 ∧ strip row.2 = row.2)
      [("SubA", "rg1")].
Proof.
  split; [reflexivity|].
  apply (load_rows_skips_blank csv_header csv_records). reflexivity.
Defined.

(** ** The directory index *)

Lemma index_step_id_to_name (st : index_state) (s : Subscription) (sid : string) :
  id_to_name (index_step st s) !! sid
  = if decide (entry_sid s ≠ "" ∧ entry_sid s = sid)
    then Some (entry_display s) else id_to_name st !! sid.
Proof.
  unfold index_step. destruct (decide (entry_sid s = "")) as [Hempty|Hsid].
  - rewrite decide_False; [done | by intros []].
  - destruct (decide (entry_key s ∈ seen_names st)); cbn [id_to_name];
      (destruct (decide (entry_sid s = sid)) as [<-|Hne];
       [rewrite lookup_insert_eq, decide_True by done; done
       |rewrite lookup_insert_ne, decide_False by (done || by intros []); done]).
Qed.

Lemma index_fold_id_to_name_other (l : list Subscription) (st : index_state)
    (sid : string) :
  (∀ e, e ∈ l → entry_sid e ≠ "" → entry_sid e ≠ sid) →
  id_to_name (fold_left index_step l st) !! sid = id_to_name st !! sid.
Proof.
  revert st. induction l as [|s l IH]; intros st Hl; cbn [fold_left]; [done|].
  rewrite IH by (intros e He; apply Hl; by right).
  rewrite index_step_id_to_name, decide_False; [done|].
  intros [Hs Heq]. by apply (Hl s ltac:(left) Hs).
Qed.

Lemma index_fold_id_to_name_origin (l : list Subscription) (st : index_state)
    (sid d : string) :
  id_to_name (fold_left index_step l st) !! sid = Some d →
  id_to_name st !! sid = Some d
  ∨ ∃ e, e ∈ l ∧ entry_sid e = sid ∧ entry_display e = d ∧ sid ≠ "".
Proof.
  revert st. induction l as [|s l IH]; intros st; cbn [fold_left]; [by left|].
  intros Hd. apply IH in Hd as [Hd|(e & He & H)].
  - rewrite index_step_id_to_name in Hd.
    destruct (decide (entry_sid s ≠ "" ∧ entry_sid s = sid)) as [[Hs <-]|];
      [|by left].
    injection Hd as <-. right. exists s. split; [left | done].
  - right. exists e. split; [by right | done].
Qed.

(** X4: [id_to_name] keeps, for every subscription id of the listing, the
    display name of the last entry with that id (a later entry replaces an
    earlier one, unlike in [name_to_id]); with distinct ids every entry
    keeps its own name. Conversely every recorded pair comes from an entry
    of the listing with a non-empty id. *)
Theorem id_to_name_last_wins (subs : list Subscription) :
  (∀ before after e,
      subs = before ++ e :: after → entry_sid e ≠ "" →
      (∀ e', e' ∈ after → entry_sid e' ≠ "" → entry_sid e' ≠ entry_sid e) →
      id_to_name (build_subscription_index subs) !! entry_sid e
      = Some (entry_display e))
  ∧ (∀ sid d,
        id_to_name (build_subscription_index subs) !! sid = Some d →
        ∃ e, e ∈ subs ∧ entry_sid e = sid ∧ entry_display e = d ∧ sid ≠ "").
Proof.
  split.
  - intros before after e -> Hsid Hafter. unfold build_subscription_index.
    rewrite fold_left_app. cbn [fold_left].
    rewrite index_fold_id_to_name_other by exact Hafter.
    by rewrite index_step_id_to_name, decide_True.
  - intros sid d Hd. unfold build_subscription_index in Hd.
    apply index_fold_id_to_name_origin in Hd as [Hd|Hd]; [|exact Hd].
    unfold index_init in Hd. cbn [id_to_name] in Hd.
    by rewrite lookup_empty in Hd.
Qed.

Lemma id_to_name_last_wins_witness :
  id_to_name (build_subscription_index two_ids_renamed) !! "A" = Some "New".
Proof.
  destruct (id_to_name_last_wins two_ids_renamed) as [Hlast _].
  apply (Hlast [ {| display_name := Some "Old"; subscription_id := Some "A" |} ]
           []
           {| display_name := Some "New"; subscription_id := Some "A" |}).
  - reflexivity.
  - vm_compute. discriminate.
  - intros e' He'. inversion He'.
Defined.

Lemma index_fold_name_origin (l : list Subscription) (st : index_state)
    (k sid : string) :
  name_to_id (fold_left index_step l st) !! k = Some sid →
  name_to_id st !! k = Some sid
  ∨ ∃ e, e ∈ l ∧ entry_key e = k ∧ entry_sid e = sid ∧ sid ≠ "".
Proof.
  revert st. induction l as [|s l IH]; intros st; cbn [fold_left]; [by left|].
  intros Hk. apply IH in Hk as [Hk|(e & He & H)].
  - unfold index_step in Hk.
    destruct (decide (entry_sid s = "")) as [|Hsid]; [by left|].
    destruct (decide (entry_key s ∈ seen_names st)); cbn [name_to_id] in Hk;
      [by left|].
    destruct (name_to_id st !! entry_key s) eqn:Hold; [by left|].
    destruct (decide (entry_key s = k)) as [<-|Hne].
    + rewrite lookup_insert_eq in Hk. injection Hk as <-.
      right. exists s. split; [left | done].
    + rewrite lookup_insert_ne in Hk by done. by left.
  - right. exists e. split; [by right | done].
Qed.

Lemma index_fold_listed (l : list Subscription) (st : index_state)
    (e : Subscription) :
  e ∈ l → entry_sid e ≠ "" →
  is_Some (id_to_name (fold_left index_step l st) !! entry_sid e).
Proof.
  intros He Hsid. apply list_elem_of_split in He as (l1 & l2 & ->).
  rewrite fold_left_app. cbn [fold_left].
  assert (Hkeep : ∀ l (st : index_state) sid,
            is_Some (id_to_name st !! sid) →
            is_Some (id_to_name (fold_left index_step l st) !! sid)).
  { clear. induction l as [|s l IH]; intros st sid Hst; cbn [fold_left];
      [done|].
    apply IH. rewrite index_step_id_to_name. by case_decide. }
  apply Hkeep. rewrite index_step_id_to_name, decide_True by done. by eexists.
Qed.

Lemma index_fold_dom (l : list Subscription) (st : index_state) :
  dom (name_to_id st) = seen_names st →
  dom (name_to_id (fold_left index_step l st))
  = seen_names (fold_left index_step l st).
Proof.
  revert st. induction l as [|s l IH]; intros st Hst; cbn [fold_left]; [done|].
  apply IH. unfold index_step.
  destruct (decide (entry_sid s = "")); [done|].
  destruct (decide (entry_key s ∈ seen_names st)) as [|Hnew];
    cbn [name_to_id seen_names]; [done|].
  destruct (name_to_id st !! entry_key s) eqn:Hold.
  - exfalso. apply Hnew. rewrite <- Hst. apply elem_of_dom. by eexists.
  - by rewrite dom_insert_L, Hst.
Qed.

Lemma lower_lower (s : string) : lower (lower s) = lower s.
Proof.
  induction s as [|c s IH]; [reflexivity|]. cbn [lower]. rewrite IH. f_equal.
  destruct c as [[] [] [] [] [] [] [] []]; reflexivity.
Qed.

(** X5: every entry of [name_to_id] is sound: its key is in lower case
    and is the lower-cased display name of an entry of the listing, its
    value is the non-empty id of that entry, and that id has a display
    name in [id_to_name]. The keys recorded are exactly the names seen. *)
Theorem name_to_id_sound (subs : list Subscription) (k sid : string) :
  name_to_id (build_subscription_index subs) !! k = Some sid →
  lower k = k ∧ sid ≠ ""
  ∧ (∃ e, e ∈ subs ∧ entry_key e = k ∧ entry_sid e = sid)
  ∧ is_Some (id_to_name (build_subscription_index subs) !! sid)
  ∧ dom (name_to_id (build_subscription_index subs))
    = seen_names (build_subscription_index subs).
Proof.
  intros Hk. unfold build_subscription_index in *.
  pose proof Hk as Horigin.
  apply index_fold_name_origin in Horigin as [Hinit|(e & He & <- & <- & Hsid)].
  { unfold index_init in Hinit. cbn [name_to_id] in Hinit.
    by rewrite lookup_empty in Hinit. }
  split; [apply lower_lower|]. split; [exact Hsid|]. split; [by exists e|].
  split; [by apply index_fold_listed|].
  apply index_fold_dom. unfold index_init. cbn [name_to_id seen_names].
  apply dom_empty_L.
Qed.

Lemma name_to_id_sound_witness :
  lower "x" = "x" ∧ "A" ≠ ""
  ∧ (∃ e, e ∈ two_named_X ∧ entry_key e = "x" ∧ entry_sid e = "A")
  ∧ is_Some (id_to_name (build_subscription_index two_named_X) !! "A")
  ∧ dom (name_to_id (build_subscription_index two_named_X))
    = seen_names (build_subscription_index two_named_X).
Proof. apply (name_to_id_sound two_named_X "x" "A"). reflexivity. Defined.



(** ** Resolution *)

(** X7: a token that is not a GUID is looked up by its lower-cased form,
    so two spellings of a name that differ only in casing resolve alike;
    the result is the non-empty id recorded under that form, with nothing
    printed, or else not-found with exactly one warning that quotes the
    token as it was typed. *)
Theorem resolve_by_name_case_insensitive (t : string)
    (n2i i2n : gmap string string) :
  GUID_RE_match t = false →
  (∀ t', GUID_RE_match t' = false → lower t' = lower t →
         (resolve_subscription_id t' n2i i2n).1
         = (resolve_subscription_id t n2i i2n).1)
  ∧ (∀ sid, resolve_subscription_id t n2i i2n = (Some sid, [])
            ↔ n2i !! lower t = Some sid ∧ sid ≠ "")
  ∧ (resolve_subscription_id t n2i i2n = (None, [not_found_warning t])
     ↔ ∀ sid, n2i !! lower t = Some sid → sid = "")
  ∧ ((resolve_subscription_id t n2i i2n).2 = []
     ↔ is_Some (resolve_subscription_id t n2i i2n).1).
Proof.
  intros Hguid.
  assert (Hres : ∀ t', GUID_RE_match t' = false →
            resolve_subscription_id t' n2i i2n
            = if truthy (n2i !! lower t') then (n2i !! lower t', [])
              else (None, [not_found_warning t'])).
  { intros t' Ht'. unfold resolve_subscription_id. by rewrite Ht'. }
  split; [|split; [|split]].
  - intros t' Ht' Hlow. rewrite (Hres t' Ht'), (Hres t Hguid), Hlow.
    by destruct (truthy (n2i !! lower t)).
  - intros sid. rewrite (Hres t Hguid).
    destruct (n2i !! lower t) as [[|c r]|]; cbn [truthy]; split;
      try done; try (by intros [[=] ?]); try (by intros [[= <-] ?]).
    + by intros [= <-].
  - rewrite (Hres t Hguid).
    destruct (n2i !! lower t) as [[|c r]|]; cbn [truthy]; split; try done.
    + by intros _ sid [= <-].
    + intros Hall. by specialize (Hall _ eq_refl).
  - rewrite (Hres t Hguid).
    destruct (n2i !! lower t) as [[|c r]|]; cbn [truthy fst snd]; split;
      try done; try (by intros [? [=]]); by eexists.
Qed.

Lemma resolve_by_name_case_insensitive_witness :
  (resolve_subscription_id "SUBA"
     (name_to_id (build_subscription_index dir_SubA))
     (id_to_name (build_subscription_index dir_SubA))).1
  = (resolve_subscription_id "SubA"
       (name_to_id (build_subscription_index dir_SubA))
       (id_to_name (build_subscription_index dir_SubA))).1.
Proof.
  refine (proj1 (resolve_by_name_case_insensitive "SubA" _ _ _) "SUBA" _ _);
    reflexivity.
Defined.

(** X8: looking up what the index recorded. A token that is not a GUID
    and is, up to casing, the stripped display name of an entry of the
    listing resolves, without a warning, to the id of the first entry with
    that name. *)
Theorem listed_name_resolves (before after : list Subscription)
    (first : Subscription) (t : string) :
  entry_sid first ≠ "" →
  (∀ e, e ∈ before → entry_sid e ≠ "" → entry_key e ≠ entry_key first) →
  GUID_RE_match t = false →
  lower t = entry_key first →
  let idx := build_subscription_index (before ++ first :: after) in
  resolve_subscription_id t (name_to_id idx) (id_to_name idx)
  = (Some (entry_sid first), []).
Proof.
  intros Hsid Hbefore Hguid Hlow idx.
  assert (Hrec : name_to_id idx !! entry_key first = Some (entry_sid first)).
  { subst idx. unfold build_subscription_index.
    rewrite fold_left_app. cbn [fold_left].
    destruct (PreparationSpec.index_fold_fresh before
                (index_init (before ++ first :: after)) (entry_key first))
      as [Hs Hm]; [set_solver | apply lookup_empty | exact Hbefore |].
    destruct (PreparationSpec.index_step_first _ first Hsid Hs Hm) as [Hm' _].
    by apply PreparationSpec.index_fold_keeps. }
  unfold resolve_subscription_id. rewrite Hguid, Hlow, Hrec.
  apply truthy_nonempty in Hsid. by rewrite Hsid.
Qed.

Lemma listed_name_resolves_witness :
  let idx := build_subscription_index ([] ++
               {| display_name := Some "SubA"; subscription_id := Some guid_2 |}
               :: []) in
  resolve_subscription_id "suba" (name_to_id idx) (id_to_name idx)
  = (Some guid_2, []).
Proof.
  apply (listed_name_resolves [] []
           {| display_name := Some "SubA"; subscription_id := Some guid_2 |}
           "suba").
  - vm_compute. discriminate.
  - intros e He. inversion He.
  - reflexivity.
  - reflexivity.
Defined.

(** ** The aggregation loop *)

Section Aggregation.
Variables n2i i2n : gmap string string.

Local Abbreviation resolved t := (resolve_subscription_id t n2i i2n).1.
Local Abbreviation printed t := (resolve_subscription_id t n2i i2n).2.
Local Abbreviation fold_rows := (fold_left (agg_step n2i i2n)).

Lemma agg_step_stderr (st : agg_state) (row : string * string) :
  agg_stderr (agg_step n2i i2n st row) = agg_stderr st ++ printed row.1.
Proof.
  unfold agg_step. destruct row as [t rg]. cbn [fst].
  destruct (resolve_subscription_id t n2i i2n) as [[sid|] out]; [|done].
  by destruct (truthy (Some sid)).
Qed.

Lemma agg_fold_stderr (rows : list (string * string)) (st : agg_state) :
  agg_stderr (fold_rows rows st)
  = agg_stderr st ++ concat (map (λ row, printed row.1) rows).
Proof.
  revert st. induction rows as [|row rows IH]; intros st; cbn [fold_left].
  - cbn. by rewrite app_nil_r.
  - rewrite IH, agg_step_stderr. cbn [map concat]. by rewrite <- List.app_assoc.
Qed.

Lemma agg_fold_dom (rows : list (string * string)) (st : agg_state)
    (sid : string) :
  sid ∈ dom (agg_rgs (fold_rows rows st))
  ↔ sid ∈ dom (agg_rgs st) ∨ ∃ t rg, (t, rg) ∈ rows ∧ resolved t = Some sid.
Proof.
  revert st. induction rows as [|[t' rg'] rows IH]; intros st; cbn [fold_left].
  - split; [by left|]. intros [?|(t & rg & Ht & _)]; [done | inversion Ht].
  - rewrite IH, PreparationSpec.agg_step_rgs. split.
    + intros [Hin|(t & rg & Ht & Hres)].
      * destruct (resolved t') as [sid'|] eqn:Hr; [|by left].
        unfold add_rg in Hin. rewrite dom_insert_L in Hin.
        apply elem_of_union in Hin as [->%elem_of_singleton|Hin]; [|by left].
        right. exists t', rg'. split; [left | done].
      * right. exists t, rg. split; [by right | done].
    + intros [Hin|(t & rg & Ht & Hres)].
      * left. destruct (resolved t') as [sid'|]; [|done].
        unfold add_rg. rewrite dom_insert_L. apply elem_of_union. by right.
      * apply elem_of_cons in Ht as [[= -> ->]|Ht].
        -- left. rewrite Hres. unfold add_rg. rewrite dom_insert_L.
           apply elem_of_union. left. by apply elem_of_singleton.
        -- right. by exists t, rg.
Qed.

Lemma aggregate_dom (rows : list (string * string)) (sid : string) :
  sid ∈ dom (agg_rgs (aggregate n2i i2n rows))
  ↔ ∃ t rg, (t, rg) ∈ rows ∧ resolved t = Some sid.
Proof.
  unfold aggregate. rewrite agg_fold_dom.
  unfold agg_init. cbn [agg_rgs]. rewrite dom_empty_L.
  split; [intros [?%not_elem_of_empty|?]; done | by right].
Qed.

Lemma aggregate_empty (rows : list (string * string)) :
  agg_rgs (aggregate n2i i2n rows) = ∅
  ↔ ∀ t rg, (t, rg) ∈ rows → resolved t = None.
Proof.
  split.
  - intros Hempty t rg Hin.
    destruct (resolved t) as [sid|] eqn:Hres; [|done].
    assert (Hsid : sid ∈ dom (agg_rgs (aggregate n2i i2n rows)))
      by (apply aggregate_dom; by exists t, rg).
    rewrite Hempty, dom_empty_L in Hsid. by apply not_elem_of_empty in Hsid.
  - intros Hnone. apply dom_empty_iff_L, set_eq. intros sid.
    rewrite aggregate_dom. split; [|by intros ?%not_elem_of_empty].
    intros (t & rg & Hin & Hres). by rewrite (Hnone t rg Hin) in Hres.
Qed.

Lemma aggregate_stderr (rows : list (string * string)) :
  agg_stderr (aggregate n2i i2n rows)
  = concat (map (λ row, if resolved row.1 is Some _ then []
                        else [not_found_warning row.1]) rows).
Proof.
  unfold aggregate. rewrite agg_fold_stderr. cbn [agg_init agg_stderr app].
  f_equal. apply map_ext. intros [t rg]. cbn [fst].
  unfold resolve_subscription_id.
  destruct (GUID_RE_match t); [done|].
  by destruct (n2i !! lower t) as [[|c r]|].
Qed.

(** X9: a row whose token does not resolve is skipped and the fold goes
    on. The subscriptions aggregated are exactly the ids some row
    resolves to; the lines printed are the not-found warnings of the rows
    that do not resolve, in the order of the rows; and [agg_rgs] is empty
    exactly when no row resolves. *)
Theorem unresolved_rows_skipped (rows : list (string * string)) :
  (∀ sid, sid ∈ dom (agg_rgs (aggregate n2i i2n rows))
          ↔ ∃ t rg, (t, rg) ∈ rows ∧ resolved t = Some sid)
  ∧ agg_stderr (aggregate n2i i2n rows)
    = concat (map (λ row, if resolved row.1 is Some _ then []
                          else [not_found_warning row.1]) rows)
  ∧ (agg_rgs (aggregate n2i i2n rows) = ∅
     ↔ ∀ t rg, (t, rg) ∈ rows → resolved t = None).
Proof.
  split; [apply aggregate_dom|]. split; [apply aggregate_stderr|].
  apply aggregate_empty.
Qed.

Lemma agg_step_name (st : agg_state) (t rg : string) :
  agg_name (agg_step n2i i2n st (t, rg))
  = match resolved t with
    | Some sid =>
        let chosen :=
          if negb (truthy (i2n !! sid)) && negb (GUID_RE_match t)
          then Some (strip t) else i2n !! sid in
        if truthy chosen then setdefault sid (or_empty chosen) (agg_name st)
        else agg_name st
    | None => agg_name st
    end.
Proof.
  unfold agg_step.
  pose proof (λ sid, PreparationSpec.resolve_truthy t sid n2i i2n) as Htr.
  destruct (resolve_subscription_id t n2i i2n) as [[sid|] out];
    cbn [fst] in *; [|reflexivity].
  by rewrite (Htr sid eq_refl).
Qed.

Lemma setdefault_lookup (k v k' : string) (d : gmap string string) :
  setdefault k v d !! k'
  = if decide (k = k') then Some (default v (d !! k')) else d !! k'.
Proof.
  unfold setdefault. destruct (decide (k = k')) as [<-|Hne].
  - destruct (d !! k) eqn:Hk; [by rewrite Hk | by rewrite lookup_insert_eq].
  - destruct (d !! k); [done | by rewrite lookup_insert_ne].
Qed.

(** The names chosen never include the empty string, and a name, once
    set, stays. *)
Lemma agg_fold_name_keeps (rows : list (string * string)) (st : agg_state)
    (sid name : string) :
  agg_name st !! sid = Some name →
  agg_name (fold_rows rows st) !! sid = Some name.
Proof.
  revert st. induction rows as [|[t rg] rows IH]; intros st Hst;
    cbn [fold_left]; [done|].
  apply IH. rewrite agg_step_name.
  destruct (resolved t) as [sid'|]; [|done]. cbn zeta.
  destruct (truthy _); [|done].
  rewrite setdefault_lookup. case_decide; [by rewrite Hst | done].
Qed.

(** X10: the name of a subscription in the output prefers the directory:
    when [id_to_name] has a non-empty display name for an id that some
    row resolves to, that display name is the one recorded in [agg_name],
    however the rows spell the subscription. *)
Theorem directory_name_preferred (rows : list (string * string))
    (sid name t rg : string) :
  (t, rg) ∈ rows → resolved t = Some sid →
  i2n !! sid = Some name → name ≠ "" →
  agg_name (aggregate n2i i2n rows) !! sid = Some name.
Proof.
  intros Hin Hres Hname Hne. unfold aggregate.
  assert (Hfold : ∀ rows (st : agg_state),
            (t, rg) ∈ rows →
            (∀ n, agg_name st !! sid = Some n → n = name) →
            agg_name (fold_rows rows st) !! sid = Some name).
  { clear Hin. induction rows0 as [|[t' rg'] rows0 IH]; intros st Hin Hst;
      [inversion Hin|].
    cbn [fold_left]. apply elem_of_cons in Hin as [[= <- <-]|Hin].
    - apply agg_fold_name_keeps. rewrite agg_step_name, Hres. cbn zeta.
      rewrite Hname. apply truthy_nonempty in Hne as Htr. rewrite Htr.
      cbn [negb andb or_empty default]. rewrite Htr, setdefault_lookup.
      rewrite decide_True by done.
      destruct (agg_name st !! sid) as [n|] eqn:Hn; [|done].
      by rewrite (Hst n eq_refl).
    - apply IH; [done|]. intros n. rewrite agg_step_name.
      destruct (resolved t') as [sid'|] eqn:Hr'; [|apply Hst]. cbn zeta.
      destruct (decide (sid' = sid)) as [->|Hother].
      + rewrite Hname. apply truthy_nonempty in Hne as Htr. rewrite Htr.
        cbn [negb andb or_empty default]. rewrite Htr, setdefault_lookup.
        rewrite decide_True by done.
        destruct (agg_name st !! sid) as [n'|] eqn:Hn; cbn [default].
        * intros [= <-]. by apply Hst.
        * by intros [= <-].
      + destruct (truthy _); [|apply Hst].
        rewrite setdefault_lookup, decide_False by done. apply Hst. }
  apply Hfold; [done|]. intros n. unfold agg_init. cbn [agg_name].
  by rewrite lookup_empty.
Qed.

End Aggregation.

Lemma directory_name_preferred_witness :
  let idx := build_subscription_index dir_SubA in
  agg_name (aggregate (name_to_id idx) (id_to_name idx)
              [("suba", "rg1"); (guid_2, "rg2")]) !! guid_2
  = Some "SubA".
Proof.
  intros idx.
  apply (directory_name_preferred (name_to_id idx) (id_to_name idx)
           [("suba", "rg1"); (guid_2, "rg2")] guid_2 "SubA" "suba" "rg1").
  - left.
  - reflexivity.
  - reflexivity.
  - discriminate.
Defined.

(** ** Sorting *)

Section Sorting.
Context {A : Type} (key : A → string).

Local Abbreviation key_le := (λ a b : A, String.le (key a) (key b)).

Lemma ltb_false_le (a b : string) : String.ltb a b = false → String.le b a.
Proof.
  unfold String.ltb, String.le, String.leb. rewrite (String.compare_antisym b a).
  by destruct (String.compare a b).
Qed.

Lemma ltb_true_le (a b : string) : String.ltb a b = true → String.le a b.
Proof.
  unfold String.ltb, String.le, String.leb. by destruct (String.compare a b).
Qed.

Lemma insert_by_perm (x : A) (l : list A) : insert_by key x l ≡ₚ x :: l.
Proof.
  induction l as [|y l IH]; cbn [insert_by]; [done|].
  destruct (String.ltb (key y) (key x)); [|done].
  rewrite IH. apply Permutation_swap.
Qed.

Lemma sorted_by_perm (l : list A) : sorted_by key l ≡ₚ l.
Proof.
  induction l as [|x l IH]; cbn [sorted_by fold_right]; [done|].
  fold (sorted_by key l). by rewrite insert_by_perm, IH.
Qed.

Lemma insert_by_sorted (x : A) (l : list A) :
  Sorted key_le l → Sorted key_le (insert_by key x l).
Proof.
  induction l as [|y l IH]; cbn [insert_by]; intros Hl.
  - by repeat constructor.
  - destruct (String.ltb (key y) (key x)) eqn:Hyx.
    + apply Sorted_inv in Hl as [Hl Hhd]. constructor; [by apply IH|].
      destruct l as [|z l]; cbn [insert_by].
      * constructor. by apply ltb_true_le.
      * destruct (String.ltb (key z) (key x)); constructor;
          [by inversion Hhd | by apply ltb_true_le].
    + constructor; [done|]. constructor. by apply ltb_false_le.
Qed.

Lemma sorted_by_sorted (l : list A) : Sorted key_le (sorted_by key l).
Proof.
  induction l as [|x l IH]; cbn [sorted_by fold_right]; [constructor|].
  by apply insert_by_sorted.
Qed.

End Sorting.

(** The sorted list of a set of strings does not depend on the order in
    which the set is enumerated. *)
Lemma sorted_by_id_unique (l1 l2 : list string) :
  l1 ≡ₚ l2 → sorted_by id l1 = sorted_by id l2.
Proof.
  intros Hperm. apply (Sorted_unique String.le).
  - apply (sorted_by_sorted id).
  - apply (sorted_by_sorted id).
  - by rewrite !sorted_by_perm.
Qed.

(** ** The document *)

Section Document.
Variables n2i i2n : gmap string string.

Local Abbreviation resolved t := (resolve_subscription_id t n2i i2n).1.

Lemma agg_order_fold (rows : list (string * string)) (order : list string) :
  NoDup order →
  NoDup (fold_left (order_step n2i i2n) rows order)
  ∧ ∀ sid, sid ∈ fold_left (order_step n2i i2n) rows order
           ↔ sid ∈ order ∨ ∃ t rg, (t, rg) ∈ rows ∧ resolved t = Some sid.
Proof.
  revert order. induction rows as [|[t rg] rows IH]; intros order Hnd;
    cbn [fold_left].
  - split; [done|]. intros sid. split; [by left|].
    intros [?|(t & rg & Hin & _)]; [done | inversion Hin].
  - assert (Hstep : NoDup (order_step n2i i2n order (t, rg))
              ∧ ∀ sid, sid ∈ order_step n2i i2n order (t, rg)
                       ↔ sid ∈ order ∨ resolved t = Some sid).
    { unfold order_step. cbn [fst].
      pose proof (λ sid, PreparationSpec.resolve_truthy t sid n2i i2n) as Htr.
      destruct (resolved t) as [sid'|].
      - rewrite (Htr sid' eq_refl). cbn [andb].
        destruct (bool_decide_reflect (sid' ∈ order)) as [Hin|Hnew];
          cbn [negb].
        + split; [done|]. intros sid. split; [by left|].
          by intros [?|[= <-]].
        + split.
          * apply NoDup_app. split; [done|]. split; [|apply NoDup_singleton].
            intros x Hx ->%list_elem_of_singleton. done.
          * intros sid. rewrite elem_of_app, list_elem_of_singleton.
            split; (intros [?|?]; [by left | right; congruence]).
      - split; [done|]. intros sid. split; [by left | by intros [?|?]]. }
    destruct Hstep as [Hnd' Hmem].
    destruct (IH _ Hnd') as [Hnd'' Hall]. split; [done|].
    intros sid. rewrite Hall, Hmem. split.
    + intros [[?|Hres]|(t' & rg' & Hin & Hres)]; [by left | |].
      * right. exists t, rg. split; [left | done].
      * right. exists t', rg'. split; [by right | done].
    + intros [?|(t' & rg' & Hin & Hres)]; [by left; left|].
      apply elem_of_cons in Hin as [[= -> ->]|Hin]; [by left; right|].
      right. by exists t', rg'.
Qed.

Lemma agg_order_dom (rows : list (string * string)) (sid : string) :
  sid ∈ agg_order n2i i2n rows
  ↔ sid ∈ dom (agg_rgs (aggregate n2i i2n rows)).
Proof.
  rewrite aggregate_dom. unfold agg_order.
  destruct (agg_order_fold rows [] (NoDup_nil_2)) as [_ ->].
  split; [intros [Hin|?]; [inversion Hin | done] | by right].
Qed.

Lemma out_doc_ids (st : agg_state) (order : list string) :
  map doc_id (out_doc st order i2n) = sorted_by lower order.
Proof. unfold out_doc. rewrite map_map. apply List.map_id. Qed.

(** X11: the subscriptions of the document are exactly the ids the rows
    resolve to, each once, in ascending order of their lower-cased
    form. *)
Theorem document_ids_sorted (rows : list (string * string)) :
  let doc := out_doc (aggregate n2i i2n rows) (agg_order n2i i2n rows) i2n in
  NoDup (map doc_id doc)
  ∧ Sorted (λ a b, String.le (lower a) (lower b)) (map doc_id doc)
  ∧ ∀ sid, sid ∈ map doc_id doc
           ↔ ∃ t rg, (t, rg) ∈ rows ∧ resolved t = Some sid.
Proof.
  intros doc. subst doc. rewrite out_doc_ids.
  destruct (agg_order_fold rows [] (NoDup_nil_2)) as [Hnd _].
  fold (agg_order n2i i2n rows) in Hnd.
  split; [by rewrite sorted_by_perm|]. split; [apply sorted_by_sorted|].
  intros sid. by rewrite sorted_by_perm, agg_order_dom, aggregate_dom.
Qed.

(** X12: every subscription of the document lists the resource groups
    folded for it, each once, in ascending order, and there is at least
    one; the list does not depend on the order in which the set is
    enumerated. *)
Theorem document_groups_sorted (rows : list (string * string))
    (entry : doc_entry) :
  entry ∈ out_doc (aggregate n2i i2n rows) (agg_order n2i i2n rows) i2n →
  ∃ rgs,
    agg_rgs (aggregate n2i i2n rows) !! doc_id entry = Some rgs
    ∧ (∀ rg, rg ∈ doc_resource_groups entry ↔ rg ∈ rgs)
    ∧ NoDup (doc_resource_groups entry)
    ∧ Sorted String.le (doc_resource_groups entry)
    ∧ doc_resource_groups entry ≠ []
    ∧ ∀ l, l ≡ₚ elements rgs → sorted_by id l = doc_resource_groups entry.
Proof.
  unfold out_doc. intros Hin.
  apply list_elem_of_fmap in Hin as (sid & -> & Hsid). cbn [doc_id doc_resource_groups].
  rewrite sorted_by_perm, agg_order_dom in Hsid.
  pose proof Hsid as Hdom.
  apply elem_of_dom in Hsid as [rgs Hrgs]. exists rgs.
  rewrite Hrgs. change (default ∅ (Some rgs)) with rgs.
  assert (Hmem : ∀ rg, rg ∈ sorted_by id (elements rgs) ↔ rg ∈ rgs)
    by (intros rg; by rewrite sorted_by_perm, elem_of_elements).
  split; [done|]. split; [exact Hmem|]. split; [|split; [|split]].
  - rewrite sorted_by_perm. apply NoDup_elements.
  - apply (sorted_by_sorted id).
  - apply aggregate_dom in Hdom as (t & rg & Hrow & Hres).
    assert (Hrg : rg ∈ rgs).
    { pose proof (PreparationSpec.aggregate_from_elem n2i i2n rows agg_init
                    sid rg) as Hiff.
      fold (aggregate n2i i2n rows) in Hiff. rewrite Hrgs in Hiff.
      apply Hiff. right. by exists t. }
    apply Hmem in Hrg.
    destruct (sorted_by id (elements rgs)); [inversion Hrg | done].
  - intros l Hl. by apply sorted_by_id_unique.
Qed.

End Document.

Lemma document_groups_sorted_witness :
  let idx := build_subscription_index dir_SubA in
  ∃ rgs,
    agg_rgs (aggregate (name_to_id idx) (id_to_name idx) rows_rg1_RG1)
      !! guid_2 = Some rgs
    ∧ Sorted String.le ["RG1"; "rg1"]
    ∧ ∀ l, l ≡ₚ elements rgs → sorted_by id l = ["RG1"; "rg1"].
Proof.
  intros idx.
  destruct (document_groups_sorted (name_to_id idx) (id_to_name idx)
              rows_rg1_RG1
              {| doc_id := guid_2; doc_name := "SubA";
                 doc_resource_groups := ["RG1"; "rg1"] |})
    as (rgs & Hrgs & _ & _ & Hsorted & _ & Hany).
  - vm_compute. left.
  - exists rgs. by split.
Defined.

(** ** main *)

(** X13: how [main] ends. A header line without the two columns ends
    the run with exit code 2; a file without a complete record ends it
    with exit code 1 and the no-rows message, before the directory is
    consulted; rows of which none resolves end it with exit code 1 after
    the warnings of the index and one not-found warning per row, with the
    none-resolved message last; and as soon as one row resolves, a
    document with at least one subscription is written. *)
Theorem main_outcomes (value_error : list string → string)
    (fieldnames : list string) (records : list (gmap string string))
    (subs : list Subscription) :
  let idx := build_subscription_index subs in
  let resolved t :=
    (resolve_subscription_id t (name_to_id idx) (id_to_name idx)).1 in
  (detect_headers fieldnames = None →
   main value_error fieldnames records subs
   = (SysExit 2, ["Error reading CSV: " +:+ value_error fieldnames]))
  ∧ (load_rows fieldnames records = Some [] →
     main value_error fieldnames records subs = (SysExit 1, [no_rows_msg]))
  ∧ (∀ rows,
        load_rows fieldnames records = Some rows → rows ≠ [] →
        (∀ t rg, (t, rg) ∈ rows → resolved t = None) →
        main value_error fieldnames records subs
        = (SysExit 1,
           stderr idx ++ map (λ row, not_found_warning row.1) rows
           ++ [none_resolved_msg]))
  ∧ (∀ rows t rg,
        load_rows fieldnames records = Some rows →
        (t, rg) ∈ rows → is_Some (resolved t) →
        ∃ doc,
          main value_error fieldnames records subs
          = (WroteYaml doc,
             stderr idx
             ++ agg_stderr (aggregate (name_to_id idx) (id_to_name idx) rows))
          ∧ doc ≠ []).
Proof.
  intros idx resolved. unfold main. split; [|split; [|split]].
  - unfold load_rows. by intros ->.
  - by intros ->.
  - intros rows -> Hne Hnone. destruct rows as [|row rows]; [done|].
    fold idx.
    assert (Hempty := proj2 (aggregate_empty (name_to_id idx) (id_to_name idx)
                               (row :: rows)) Hnone).
    rewrite bool_decide_eq_true_2 by exact Hempty.
    rewrite aggregate_stderr. f_equal. rewrite <- List.app_assoc. f_equal.
    f_equal.
    assert (Hall : ∀ l : list (string * string),
              (∀ t rg, (t, rg) ∈ l → resolved t = None) →
              concat (map (λ r, if resolved r.1 is Some _ then []
                                else [not_found_warning r.1]) l)
              = map (λ r, not_found_warning r.1) l).
    { induction l as [|[t rg] l IH]; intros Hl; [done|].
      cbn [map concat fst]. rewrite (Hl t rg) by left. cbn [app].
      f_equal. apply IH. intros t' rg' Hin. apply (Hl t' rg'). by right. }
    by apply Hall.
  - intros rows t rg -> Hin [sid Hres]. destruct rows as [|row rows];
      [inversion Hin|].
    fold idx.
    assert (Hdom : sid ∈ dom (agg_rgs (aggregate (name_to_id idx)
                                         (id_to_name idx) (row :: rows))))
      by (apply aggregate_dom; by exists t, rg).
    rewrite bool_decide_eq_false_2.
    + eexists. split; [reflexivity|].
      apply agg_order_dom in Hdom.
      intros Hnil. apply (f_equal (map doc_id)) in Hnil.
      rewrite out_doc_ids in Hnil. cbn [map] in Hnil.
      assert (Hin' : sid ∈ sorted_by lower
                       (agg_order (name_to_id idx) (id_to_name idx)
                          (row :: rows)))
        by (by rewrite sorted_by_perm).
      rewrite Hnil in Hin'. inversion Hin'.
    + intros Hempty. rewrite Hempty, dom_empty_L in Hdom.
      by apply not_elem_of_empty in Hdom.
Qed.

Lemma main_outcomes_witness :
  ∃ doc,
    main (λ _, "") csv_header csv_records dir_SubA
    = (WroteYaml doc,
       stderr (build_subscription_index dir_SubA)
       ++ agg_stderr (aggregate
                        (name_to_id (build_subscription_index dir_SubA))
                        (id_to_name (build_subscription_index dir_SubA))
                        [("SubA", "rg1")]))
    ∧ doc ≠ [].
Proof.
  destruct (main_outcomes (λ _, "") csv_header csv_records dir_SubA)
    as (_ & _ & _ & Hwrote).
  apply (Hwrote [("SubA", "rg1")] "SubA" "rg1").
  - reflexivity.
  - left.
  - by eexists.
Defined.

(** ** resolve_output_path *)



(** ** What the GUID pattern matches *)

Lemma hex_group_inv (n : nat) (s rest : string) :
  hex_group n s = Some rest → ∃ g, hex_string n g ∧ s = g +:+ rest.
Proof.
  revert s. induction n as [|n IH]; intros s; cbn [hex_group].
  - intros [= ->]. exists "". repeat split. constructor.
  - destruct s as [|c s]; [discriminate|].
    destruct (is_hex c) eqn:Hc; [|discriminate].
    intros Hs. apply IH in Hs as (g & [Hlen Hhex] & ->).
    exists (String c g). split; [|reflexivity].
    split; [cbn; by rewrite Hlen | by constructor].
Qed.

Lemma dash_inv (s rest : string) : dash s = Some rest → s = "-" +:+ rest.
Proof.
  unfold dash. destruct s as [|c s]; [discriminate|].
  destruct c as [[] [] [] [] [] [] [] []]; try discriminate.
  by intros [= ->].
Qed.

(** X25: [GUID_RE] matches exactly the strings made of five groups of
    8, 4, 4, 4 and 12 hexadecimal digits joined by dashes, and those
    strings followed by one newline (the [$] of the pattern allows it);
    nothing else is passed through as a GUID. *)
Theorem guid_pattern_exact (s : string) :
  GUID_RE_match s = true
  ↔ guid_shape s ∨ ∃ g, guid_shape g ∧ s = g +:+ String "010" "".
Proof.
  split.
  - unfold GUID_RE_match. cbn [mbind option_bind].
    destruct (hex_group 8 s) as [r1|] eqn:H1; cbn [mbind option_bind];
      [|discriminate].
    destruct (dash r1) as [r2|] eqn:D1; cbn [mbind option_bind];
      [|discriminate].
    destruct (hex_group 4 r2) as [r3|] eqn:H2; cbn [mbind option_bind];
      [|discriminate].
    destruct (dash r3) as [r4|] eqn:D2; cbn [mbind option_bind];
      [|discriminate].
    destruct (hex_group 4 r4) as [r5|] eqn:H3; cbn [mbind option_bind];
      [|discriminate].
    destruct (dash r5) as [r6|] eqn:D3; cbn [mbind option_bind];
      [|discriminate].
    destruct (hex_group 4 r6) as [r7|] eqn:H4; cbn [mbind option_bind];
      [|discriminate].
    destruct (dash r7) as [r8|] eqn:D4; cbn [mbind option_bind];
      [|discriminate].
    destruct (hex_group 12 r8) as [r9|] eqn:H5; cbn [mbind option_bind];
      [|discriminate].
    apply hex_group_inv in H1 as (g1 & Hg1 & ->), H2 as (g2 & Hg2 & ->),
      H3 as (g3 & Hg3 & ->), H4 as (g4 & Hg4 & ->), H5 as (g5 & Hg5 & ->).
    apply dash_inv in D1 as ->, D2 as ->, D3 as ->, D4 as ->.
    intros Hend.
    assert (Hshape : guid_shape
              (g1 +:+ "-" +:+ g2 +:+ "-" +:+ g3 +:+ "-" +:+ g4 +:+ "-" +:+ g5))
      by (by exists g1, g2, g3, g4, g5).
    destruct r9 as [|c r9].
    + left. by rewrite PreparationSpec.append_empty_r.
    + right. unfold at_dollar in Hend.
      destruct c as [[] [] [] [] [] [] [] []]; try discriminate.
      destruct r9; [|discriminate].
      eexists. split; [exact Hshape|].
      by rewrite !PullMonthlySpec.string_app_assoc.
  - intros [Hshape|(g & Hshape & ->)];
      [by apply PreparationSpec.guid_shape_matches|].
    destruct Hshape as (g1 & g2 & g3 & g4 & g5 & H1 & H2 & H3 & H4 & H5 & ->).
    unfold GUID_RE_match. cbn [mbind option_bind].
    rewrite !PullMonthlySpec.string_app_assoc.
    rewrite (PreparationSpec.hex_group_app 8 g1) by assumption.
    cbn [mbind option_bind]. rewrite PreparationSpec.dash_app.
    cbn [mbind option_bind].
    rewrite (PreparationSpec.hex_group_app 4 g2) by assumption.
    cbn [mbind option_bind]. rewrite PreparationSpec.dash_app.
    cbn [mbind option_bind].
    rewrite (PreparationSpec.hex_group_app 4 g3) by assumption.
    cbn [mbind option_bind]. rewrite PreparationSpec.dash_app.
    cbn [mbind option_bind].
    rewrite (PreparationSpec.hex_group_app 4 g4) by assumption.
    cbn [mbind option_bind]. rewrite PreparationSpec.dash_app.
    cbn [mbind option_bind].
    rewrite (PreparationSpec.hex_group_app 12 g5) by assumption.
    reflexivity.
Qed.

End PreparationMainSpec.

(** * Further properties of the monthly cost pull *)

Module PullMonthlyMainSpec.
Import PyStr PullMonthly PullMonthlyMain.

Local Open Scope Q_scope.

(** ** Retry-After headers *)

Section Headers.
Variable to_float : string → option Q.

Lemma parse_keys_skip (before keys : list string)
    (headers : gmap string string) :
  (∀ k, k ∈ before → truthy (headers !! k) = false) →
  parse_keys to_float (before ++ keys) headers
  = parse_keys to_float keys headers.
Proof.
  induction before as [|k before IH]; intros Hbefore; [done|].
  cbn [app parse_keys]. rewrite (Hbefore k) by left.
  apply IH. intros k' Hk'. apply Hbefore. by right.
Qed.

(** X15: the first of the six headers, in the order of
    [RETRY_AFTER_KEYS], that is present with a non-empty value decides
    the hint alone: the hint is [float] of that value, and when that
    value is not a number (an HTTP date, say) there is no hint, whatever
    the headers after it hold. Without any such header there is no hint. *)
Theorem first_retry_header_decides (headers : gmap string string) :
  (∀ before k after v,
      RETRY_AFTER_KEYS = before ++ k :: after →
      (∀ k', k' ∈ before → truthy (headers !! k') = false) →
      headers !! k = Some v → v ≠ "" →
      _parse_retry_after to_float headers = to_float v)
  ∧ ((∀ k, k ∈ RETRY_AFTER_KEYS → truthy (headers !! k) = false) →
     _parse_retry_after to_float headers = None).
Proof.
  unfold _parse_retry_after. split.
  - intros before k after v -> Hbefore Hk Hv.
    rewrite parse_keys_skip by done. cbn [parse_keys]. rewrite Hk.
    destruct v; [done|]. reflexivity.
  - intros Hnone.
    rewrite <- (app_nil_r RETRY_AFTER_KEYS), parse_keys_skip by done.
    reflexivity.
Qed.

End Headers.

Lemma first_retry_header_decides_witness :
  _parse_retry_after float_of_digits date_then_seconds = None
  ∧ float_of_digits "5" = Some 5.
Proof.
  split; [|reflexivity].
  destruct (first_retry_header_decides float_of_digits date_then_seconds)
    as [Hfirst _].
  rewrite (Hfirst [] "Retry-After" (tail RETRY_AFTER_KEYS)
             "Wed, 21 Oct 2015 07:28:00 GMT").
  - reflexivity.
  - reflexivity.
  - intros k' Hk'. inversion Hk'.
  - reflexivity.
  - discriminate.
Defined.

(** ** The backoff *)

Lemma pymin_mono (a b c : Q) : a <= b → pymin a c <= pymin b c.
Proof.
  intros Hab. unfold pymin.
  destruct (Qlt_le_dec c a), (Qlt_le_dec c b); lra.
Qed.

Lemma pow2_mono (a b : Z) : (0 ≤ a ≤ b)%Z → inject_Z (2 ^ a) <= inject_Z (2 ^ b).
Proof.
  intros Hab. rewrite <- Zle_Qle. apply Z.pow_le_mono_r; lia.
Qed.

Lemma pow2_nonneg (a : Z) : 0 <= inject_Z (2 ^ a).
Proof.
  change 0 with (inject_Z 0). rewrite <- Zle_Qle. apply Z.pow_nonneg. lia.
Qed.

(** X16: without a hint the wait before jitter never decreases from one
    attempt to the next and stays between 0 and 60 seconds, for every
    non-negative [base_sleep]; once [base_sleep * 2^attempt] reaches 60
    the wait is 60. *)
Theorem backoff_nondecreasing (to_float : string → option Q)
    (headers_map : gmap string string) (base_sleep : Q) (attempt later : Z) :
  _parse_retry_after to_float headers_map = None →
  0 <= base_sleep → (0 ≤ attempt ≤ later)%Z →
  retry_wait to_float headers_map base_sleep attempt
  <= retry_wait to_float headers_map base_sleep later
  ∧ 0 <= retry_wait to_float headers_map base_sleep attempt
  ∧ retry_wait to_float headers_map base_sleep attempt <= 60
  ∧ (60 <= base_sleep * inject_Z (2 ^ attempt) →
     retry_wait to_float headers_map base_sleep attempt == 60).
Proof.
  intros Hnone Hbase Hatt. unfold retry_wait. rewrite Hnone.
  pose proof (pow2_mono attempt later Hatt) as Hmono.
  pose proof (pow2_nonneg attempt) as Hpos.
  split; [|split; [|split]].
  - apply pymin_mono. nra.
  - unfold pymin. destruct (Qlt_le_dec _ _); nra.
  - unfold pymin. destruct (Qlt_le_dec _ _); lra.
  - intros Hbig. unfold pymin. destruct (Qlt_le_dec _ _); lra.
Qed.

Lemma backoff_nondecreasing_witness :
  retry_wait float_of_digits ∅ 2 4 <= retry_wait float_of_digits ∅ 2 5
  ∧ 0 <= retry_wait float_of_digits ∅ 2 4
  ∧ retry_wait float_of_digits ∅ 2 4 <= 60
  ∧ (60 <= 2 * inject_Z (2 ^ 4) → retry_wait float_of_digits ∅ 2 4 == 60).
Proof.
  apply (backoff_nondecreasing float_of_digits ∅ 2 4 5).
  - reflexivity.
  - discriminate.
  - lia.
Defined.

(** ** Sleeping in the executor *)

Section Sleeps.
Variable to_float : string → option Q.
Variable usage : nat → string → string * string → completion Response.
Variable random : nat → Q.
Variables (scope : string) (period : string * string).
Variables (max_retries : Z) (base_sleep : Q).

Local Abbreviation loop := (retry_loop to_float usage random).

Lemma retry_loop_sleeps (fuel : nat) :
  ∀ (attempt : Z) (w w' : world) (out : completion Response),
    loop fuel scope period max_retries base_sleep attempt w = Some (out, w') →
    (n_calls w < n_calls w')%nat
    ∧ length (slept w')
      = (length (slept w) + slept_after out (n_calls w' - n_calls w))%nat
    ∧ n_draws w'
      = (n_draws w + slept_after out (n_calls w' - n_calls w))%nat.
Proof.
  induction fuel as [|fuel IH]; intros attempt w w' out; [discriminate|].
  cbn [retry_loop].
  destruct (usage (n_calls w) scope period) as [resp|e] eqn:Hcall.
  { intros [= <- <-]. cbn [slept_after n_calls slept n_draws]. split; [lia|].
    replace (S (n_calls w) - n_calls w - 1)%nat with 0%nat by lia. lia. }
  destruct e as [status_code headers_map|msg|class].
  2,3: intros [= <- <-]; cbn [slept_after n_calls slept n_draws transient_exn];
       (split; [lia|]);
       replace (S (n_calls w) - n_calls w - 1)%nat with 0%nat by lia; lia.
  destruct (is_transient status_code) eqn:Htr.
  2: { intros [= <- <-]. cbn [slept_after n_calls slept n_draws transient_exn].
       rewrite Htr. split; [lia|].
       replace (S (n_calls w) - n_calls w - 1)%nat with 0%nat by lia. lia. }
  destruct (max_retries <=? attempt + 1)%Z.
  - intros [= <- <-]. cbn [slept_after n_calls slept n_draws transient_exn].
    rewrite Htr, length_app. cbn [length]. split; [lia|].
    replace (S (n_calls w) - n_calls w)%nat with 1%nat by lia. lia.
  - intros Hrun. apply IH in Hrun as (Hlt & Hslept & Hdraws).
    cbn [n_calls slept n_draws] in Hlt, Hslept, Hdraws.
    rewrite length_app in Hslept. cbn [length] in Hslept.
    split; [lia|]. unfold slept_after in *.
    destruct out as [resp|e].
    + replace (n_calls w' - n_calls w - 1)%nat
        with (S (n_calls w' - S (n_calls w) - 1))%nat by lia. lia.
    + destruct (transient_exn e).
      * replace (n_calls w' - n_calls w)%nat
          with (S (n_calls w' - S (n_calls w)))%nat by lia. lia.
      * replace (n_calls w' - n_calls w - 1)%nat
          with (S (n_calls w' - S (n_calls w) - 1))%nat by lia. lia.
Qed.

(** X17: the executor sleeps once, with one random draw, after every
    transient failure, the last one before giving up included: a run of
    [n] calls that ends on a transient error has slept [n] times, and a
    run that ends on a result or on a non-transient error has slept
    [n - 1] times. *)
Theorem one_sleep_per_transient_failure (w w' : world)
    (out : completion Response) :
  usage_with_retry to_float usage random scope period max_retries base_sleep w
  = Some (out, w') →
  let calls := (n_calls w' - n_calls w)%nat in
  (1 ≤ calls)%nat
  ∧ length (slept w') = (length (slept w) + slept_after out calls)%nat
  ∧ n_draws w' = (n_draws w + slept_after out calls)%nat.
Proof.
  unfold usage_with_retry. cbv zeta. intros Hrun.
  apply retry_loop_sleeps in Hrun as (Hlt & Hslept & Hdraws).
  split; [lia|]. by split.
Qed.

Hypothesis random_unit : ∀ k, 0 <= random k ∧ random k < 1.
Hypothesis base_nonneg : 0 <= base_sleep.
Hypothesis no_hints :
  ∀ n status_code headers_map,
    usage n scope period = Raised (HttpResponseError status_code headers_map) →
    _parse_retry_after to_float headers_map = None.




End Sleeps.

Lemma one_sleep_per_transient_failure_witness :
  ∃ w',
    usage_with_retry float_of_digits always_throttled half "/subscriptions/s1"
      ("2024-02-01T00:00:00Z", "2024-03-01T00:00:00Z") 3 2 world_init
    = Some (Raised (HttpResponseError (Some 429%Z) ∅), w')
    ∧ length (slept w') = 3%nat ∧ n_draws w' = 3%nat.
Proof.
  eexists. split; [reflexivity|].
  refine (proj2 (one_sleep_per_transient_failure float_of_digits
                   always_throttled half "/subscriptions/s1"
                   ("2024-02-01T00:00:00Z", "2024-03-01T00:00:00Z") 3 2
                   world_init _ _ eq_refl)).
Defined.


(** ** Locating the columns *)

Lemma first_index_Some {A : Type} (p : A → bool) (l : list A) (i : nat) :
  first_index p l = Some i
  ↔ (∃ x, l !! i = Some x ∧ p x = true)
    ∧ ∀ j y, (j < i)%nat → l !! j = Some y → p y = false.
Proof.
  revert i. induction l as [|x l IH]; intros i; cbn [first_index].
  - split; [discriminate|]. by intros [(y & Hy & _) _].
  - destruct (p x) eqn:Hx.
    + split.
      * intros [= <-]. split; [by exists x|]. intros j y Hj. lia.
      * intros [(y & Hy & Hpy) Hbefore]. destruct i as [|i]; [done|].
        rewrite (Hbefore 0%nat x) in Hx; [done | lia | done].
    + destruct i as [|i].
      * split; [by destruct (first_index p l)|].
        intros [(y & Hy & Hpy) _]. cbn in Hy. injection Hy as ->. congruence.
      * assert (Hshift : S <$> first_index p l = Some (S i)
                         ↔ first_index p l = Some i)
          by (destruct (first_index p l); cbn; split; congruence).
        rewrite Hshift, IH. split; intros [Hat Hbefore]; (split; [exact Hat|]).
        -- intros [|j] y Hj; cbn; [by intros [= <-]|]. apply Hbefore. lia.
        -- intros j y Hj. apply (Hbefore (S j)). lia.
Qed.

Lemma first_index_None {A : Type} (p : A → bool) (l : list A) :
  first_index p l = None ↔ ∀ x, x ∈ l → p x = false.
Proof.
  induction l as [|x l IH]; cbn [first_index].
  - split; [intros _ x Hx; inversion Hx | done].
  - destruct (p x) eqn:Hx.
    + split; [discriminate|]. intros Hall.
      rewrite (Hall x) in Hx; [done | left].
    + assert (Hshift : S <$> first_index p l = None ↔ first_index p l = None)
        by (destruct (first_index p l); cbn; split; congruence).
      rewrite Hshift, IH. split.
      * intros Hall y Hy.
        apply elem_of_cons in Hy as [->|Hy]; [done | by apply Hall].
      * intros Hall y Hy. apply Hall. by right.
Qed.

Lemma name_in_spec (names : list string) (c : option string) :
  name_in names c = true ↔ ∃ n, c = Some n ∧ n ∈ names.
Proof.
  unfold name_in. destruct c as [n|].
  - rewrite bool_decide_eq_true. split; [by exists n | by intros (? & [= <-] & ?)].
  - split; [discriminate | by intros (? & [=] & _)].
Qed.

(** X19: the column search is schema tolerant and fails closed. The
    index returned for the resource group (for the cost) is that of the
    first column named [ResourceGroupName] or [ResourceGroup] (named
    [totalCost] or [PreTaxCost]); when no column has one of the two
    names, the search raises its [RuntimeError]: the second search for
    [totalCost] never finds a column the first one missed. *)
Theorem columns_located_by_alias (cols : list (option string)) :
  (∀ i, find_rg_idx cols = Returned i
        ↔ (∃ n, cols !! i = Some (Some n)
                ∧ n ∈ ["ResourceGroupName"; "ResourceGroup"])
          ∧ ∀ j c, (j < i)%nat → cols !! j = Some c →
                   name_in ["ResourceGroupName"; "ResourceGroup"] c = false)
  ∧ (find_rg_idx cols = Raised (RuntimeError no_rg_column_msg)
     ↔ ∀ c, c ∈ cols →
            name_in ["ResourceGroupName"; "ResourceGroup"] c = false)
  ∧ (∀ i, find_cost_idx cols = Returned i
          ↔ (∃ n, cols !! i = Some (Some n) ∧ n ∈ ["totalCost"; "PreTaxCost"])
            ∧ ∀ j c, (j < i)%nat → cols !! j = Some c →
                     name_in ["totalCost"; "PreTaxCost"] c = false)
  ∧ (find_cost_idx cols = Raised (RuntimeError no_cost_column_msg)
     ↔ ∀ c, c ∈ cols → name_in ["totalCost"; "PreTaxCost"] c = false).
Proof.
  assert (Hat : ∀ names i,
            (∃ x, cols !! i = Some x ∧ name_in names x = true)
            ↔ ∃ n, cols !! i = Some (Some n) ∧ n ∈ names).
  { intros names i. split.
    - intros (x & Hx & Hp). apply name_in_spec in Hp as (n & -> & Hn).
      by exists n.
    - intros (n & Hn & Hin). exists (Some n). split; [done|].
      apply name_in_spec. by exists n. }
  assert (Hfallback :
            first_index (name_in ["totalCost"; "PreTaxCost"]) cols = None →
            first_index (name_in ["totalCost"]) cols = None).
  { rewrite !first_index_None. intros Hall c Hc. specialize (Hall c Hc).
    destruct (name_in ["totalCost"] c) eqn:Hone; [|done].
    apply name_in_spec in Hone as (n & -> & Hn).
    rewrite <- Hall. symmetry. apply name_in_spec. exists n. split; [done|].
    apply list_elem_of_singleton in Hn as ->. left. }
  split; [|split; [|split]].
  - intros i. unfold find_rg_idx. rewrite <- Hat, <- first_index_Some.
    destruct (first_index (name_in ["ResourceGroupName"; "ResourceGroup"]) cols);
      split; intros ?; by simplify_eq.
  - unfold find_rg_idx. rewrite <- first_index_None.
    destruct (first_index (name_in ["ResourceGroupName"; "ResourceGroup"]) cols);
      split; intros ?; by simplify_eq.
  - intros i. unfold find_cost_idx. rewrite <- Hat, <- first_index_Some.
    destruct (first_index (name_in ["totalCost"; "PreTaxCost"]) cols) eqn:H1;
      [split; intros ?; by simplify_eq|].
    rewrite (Hfallback eq_refl). split; intros ?; by simplify_eq.
  - unfold find_cost_idx. rewrite <- first_index_None.
    destruct (first_index (name_in ["totalCost"; "PreTaxCost"]) cols) eqn:H1;
      [split; intros ?; by simplify_eq|].
    by rewrite (Hfallback eq_refl).
Qed.

(** ** The aggregated response *)

Section Response.
Variable to_float : string → option Q.

Lemma row_key_lower (rg_idx : nat) (r : list cell) (k : string) :
  row_key rg_idx r = Returned k → lower k = k.
Proof.
  unfold row_key, index. destruct (r !! rg_idx) as [c|]; cbn; [|discriminate].
  destruct (rg_value c) as [|q|s]; cbn; try discriminate.
  intros [= <-]. apply PullMonthlySpec.lower_idemp.
Qed.

Lemma fold_cost_rows_keys (rg_idx cost_idx : nat) (rows : list (list cell)) :
  ∀ out0 out : gmap string Q,
    fold_cost_rows to_float rg_idx cost_idx rows out0 = Returned out →
    (∀ k, k ∈ dom out0 → lower k = k) →
    ∀ k, k ∈ dom out → lower k = k.
Proof.
  induction rows as [|r rows IH]; intros out0 out; cbn [fold_cost_rows].
  - by intros [= <-].
  - destruct (cost_row_step to_float rg_idx cost_idx out0 r) as [out1|e]
      eqn:Hstep; cbn [mbind completion_bind bind]; [|discriminate].
    apply PullMonthlySpec.cost_row_step_returned in Hstep
      as (k' & c & Hk & _ & ->).
    intros Hfold Hout0. apply (IH _ _ Hfold). intros k.
    rewrite dom_insert_L, elem_of_union, elem_of_singleton.
    intros [->|Hk0]; [by apply (row_key_lower rg_idx r) | by apply Hout0].
Qed.

(** X20: the response is checked before it is folded. A response
    without a resource-group column is refused with the resource-group
    error whatever else it holds, and one without a cost column with the
    cost error, also when it has no rows; a response with both columns
    and no rows gives the empty mapping; and every key of a mapping
    returned is in lower case. *)
Theorem response_checked_then_folded (resp : Response) :
  ((∀ c, c ∈ columns resp →
         name_in ["ResourceGroupName"; "ResourceGroup"] c = false) →
   aggregate_response to_float resp = Raised (RuntimeError no_rg_column_msg))
  ∧ ((∃ c, c ∈ columns resp
           ∧ name_in ["ResourceGroupName"; "ResourceGroup"] c = true) →
     (∀ c, c ∈ columns resp → name_in ["totalCost"; "PreTaxCost"] c = false) →
     aggregate_response to_float resp
     = Raised (RuntimeError no_cost_column_msg))
  ∧ ((∃ c, c ∈ columns resp
           ∧ name_in ["ResourceGroupName"; "ResourceGroup"] c = true) →
     (∃ c, c ∈ columns resp ∧ name_in ["totalCost"; "PreTaxCost"] c = true) →
     rows resp = [] →
     aggregate_response to_float resp = Returned ∅)
  ∧ (∀ out k, aggregate_response to_float resp = Returned out →
              k ∈ dom out → lower k = k).
Proof.
  unfold aggregate_response, find_rg_idx, find_cost_idx.
  assert (Hsome : ∀ names,
            (∃ c, c ∈ columns resp ∧ name_in names c = true) →
            ∃ i, first_index (name_in names) (columns resp) = Some i).
  { intros names (c & Hc & Hp).
    destruct (first_index (name_in names) (columns resp)) as [i|] eqn:Hi;
      [by exists i|].
    rewrite first_index_None in Hi. by rewrite (Hi c Hc) in Hp. }
  split; [|split; [|split]].
  - intros Hnone. apply first_index_None in Hnone. by rewrite Hnone.
  - intros Hrg Hnone. destruct (Hsome _ Hrg) as [i ->].
    cbn [mbind completion_bind bind].
    pose proof Hnone as Hnone'. apply first_index_None in Hnone. rewrite Hnone.
    assert (Hone : first_index (name_in ["totalCost"]) (columns resp) = None).
    { apply first_index_None. intros c Hc. specialize (Hnone' c Hc).
      destruct (name_in ["totalCost"] c) eqn:H1; [|done].
      apply name_in_spec in H1 as (n & -> & Hn).
      rewrite <- Hnone'. symmetry. apply name_in_spec. exists n.
      split; [done|]. apply list_elem_of_singleton in Hn as ->. left. }
    by rewrite Hone.
  - intros Hrg Hcost ->. destruct (Hsome _ Hrg) as [i ->].
    destruct (Hsome _ Hcost) as [j ->]. reflexivity.
  - intros out k.
    destruct (first_index (name_in ["ResourceGroupName"; "ResourceGroup"])
                (columns resp)) as [i|];
      cbn [mbind completion_bind bind]; [|discriminate].
    destruct (first_index (name_in ["totalCost"; "PreTaxCost"]) _) as [j|];
      cbn [mbind completion_bind bind].
    + intros Hfold. apply (fold_cost_rows_keys _ _ _ _ _ Hfold).
      intros k'. by rewrite dom_empty_L.
    + destruct (first_index (name_in ["totalCost"]) _) as [j|];
        cbn [mbind completion_bind bind]; [|discriminate].
      intros Hfold. apply (fold_cost_rows_keys _ _ _ _ _ Hfold).
      intros k'. by rewrite dom_empty_L.
Qed.

End Response.

Lemma response_checked_then_folded_witness :
  aggregate_response float_of_digits
    {| columns := [Some "Currency"]; rows := rows resp_rg1 |}
  = Raised (RuntimeError no_rg_column_msg).
Proof.
  apply (response_checked_then_folded float_of_digits
           {| columns := [Some "Currency"]; rows := rows resp_rg1 |}).
  intros c Hc. apply list_elem_of_singleton in Hc as ->. reflexivity.
Defined.

(** ** Rounding *)

Lemma round_half_even_close (y : Q) :
  - (1 # 2) <= inject_Z (round_half_even y) - y
  ∧ inject_Z (round_half_even y) - y <= 1 # 2.
Proof.
  unfold round_half_even.
  pose proof (Qfloor_le y) as Hlo. pose proof (Qlt_floor y) as Hhi.
  rewrite inject_Z_plus in Hhi. change (inject_Z 1) with 1 in Hhi.
  destruct (Qcompare (y - inject_Z (Qfloor y)) (1 # 2)) eqn:Hcmp.
  - apply Qeq_alt in Hcmp.
    destruct (Z.even (Qfloor y)).
    + split; lra.
    + rewrite inject_Z_plus. change (inject_Z 1) with 1. split; lra.
  - apply Qlt_alt in Hcmp. split; lra.
  - apply Qgt_alt in Hcmp. rewrite inject_Z_plus. change (inject_Z 1) with 1.
    split; lra.
Qed.

(** X21: [round(cost, 2)] yields a whole number of hundredths that
    differs from the cost by at most half a hundredth. *)
Theorem round2_within_half_cent (x : Q) :
  ∃ cents : Z,
    round2 x == cents # 100
    ∧ - (1 # 200) <= round2 x - x
    ∧ round2 x - x <= 1 # 200.
Proof.
  exists (round_half_even (x * 100)). unfold round2.
  assert (Hred : Qred (round_half_even (x * 100) # 100)
                 == inject_Z (round_half_even (x * 100)) * (1 # 100)).
  { rewrite Qred_correct, Qmake_Qdiv. unfold Qdiv.
    change (/ inject_Z (Z.pos 100)) with (1 # 100). reflexivity. }
  split; [apply Qred_correct|].
  destruct (round_half_even_close (x * 100)) as [Hlo Hhi].
  rewrite Hred. split; lra.
Qed.

(** ** The record loop *)

Section Loop.
Variable to_float : string → option Q.
Variable usage : nat → string → string * string → completion Response.
Variable random : nat → Q.
Variables start_iso end_iso : string.
Variables (maxretries : Z) (pause : Q).

Local Abbreviation query :=
  (query_rg_costs_for_subscription to_float usage random).
Local Abbreviation run :=
  (λ targets, main_loop to_float usage random targets start_iso end_iso
                maxretries pause).

(** A query makes at least one call, and sleeps once per random draw. *)
Lemma query_world (sub_id : string) (w w1 : world)
    (out : completion (gmap string Q)) :
  query sub_id start_iso end_iso maxretries w = Some (out, w1) →
  (n_calls w < n_calls w1)%nat
  ∧ (n_draws w ≤ n_draws w1)%nat
  ∧ (length (slept w1) + n_draws w = length (slept w) + n_draws w1)%nat.
Proof.
  unfold query_rg_costs_for_subscription, usage_with_retry.
  destruct (retry_loop _ _ _ _ _ _ _ _ _ w) as [[res w2]|] eqn:Hrun;
    [|discriminate].
  apply retry_loop_sleeps in Hrun as (Hlt & Hslept & Hdraws).
  set (k := slept_after res _) in *. clearbody k.
  destruct res; intros [= _ <-]; repeat split; lia.
Qed.

(** X22: what a run that returns has done. It returns one record per
    requested resource group; it has called the remote side at least
    once per subscription, also for a subscription that requests no
    group; and it has slept exactly once per subscription for the pacing
    pause and once per random draw for a retry. *)
Theorem run_counts (targets : list Target) (w w' : world)
    (records : list CostRecord) :
  run targets [] w = Some (Returned records, w') →
  length records = sum_list (map (λ sub, length (resource_groups sub)) targets)
  ∧ (n_calls w + length targets ≤ n_calls w')%nat
  ∧ (length (slept w') + n_draws w
     = length (slept w) + length targets + n_draws w')%nat.
Proof.
  assert (Hgen : ∀ targets records0 w,
            run targets records0 w = Some (Returned records, w') →
            length records
            = (length records0
               + sum_list (map (λ sub, length (resource_groups sub)) targets))%nat
            ∧ (n_calls w + length targets ≤ n_calls w')%nat
            ∧ (n_draws w ≤ n_draws w')%nat
            ∧ (length (slept w') + n_draws w
               = length (slept w) + length targets + n_draws w')%nat).
  { clear targets w. induction targets as [|sub targets IH];
      intros records0 w; cbn [main_loop].
    - intros [= <- <-]. cbn. lia.
    - destruct (query (id sub) start_iso end_iso maxretries w)
        as [[[rg_costs|e] w1]|] eqn:Hq; [|discriminate..].
      apply query_world in Hq as (Hc & Hd & Hs).
      intros Hrun. apply IH in Hrun as (Hlen & Hcalls & Hdraws & Hslept).
      unfold sleep in Hcalls, Hdraws, Hslept.
      cbn [n_calls n_draws slept] in Hcalls, Hdraws, Hslept.
      rewrite length_app in Hslept. cbn [length] in Hslept.
      rewrite length_app in Hlen. unfold records_for in Hlen.
      rewrite !length_map in Hlen.
      cbn [map length].
      change (sum_list (length (resource_groups sub) :: ?l))
        with (length (resource_groups sub) + sum_list l)%nat.
      lia. }
  intros Hrun. apply Hgen in Hrun as (Hlen & Hcalls & _ & Hslept).
  cbn [length] in Hlen. by split.
Qed.


End Loop.

Lemma run_counts_witness :
  ∃ records w',
    main_loop float_of_digits throttled_twice half config_rg1_rg2
      "2024-02-01T00:00:00Z" "2024-03-01T00:00:00Z" 8 1 [] world_init
    = Some (Returned records, w')
    ∧ length records = 2%nat
    ∧ (n_calls world_init + 1 ≤ n_calls w')%nat
    ∧ (length (slept w') + n_draws world_init
       = length (slept world_init) + 1 + n_draws w')%nat.
Proof.
  eexists _, _. split; [reflexivity|].
  refine (run_counts float_of_digits throttled_twice half
            "2024-02-01T00:00:00Z" "2024-03-01T00:00:00Z" 8 1
            config_rg1_rg2 world_init _ _ eq_refl).
Defined.


(** ** main *)

Lemma string_app_length (a b : string) :
  String.length (a +:+ b) = (String.length a + String.length b)%nat.
Proof.
  induction a as [|c a IH]; [reflexivity|].
  change (S (String.length (a +:+ b))
          = S (String.length a + String.length b)). by rewrite IH.
Qed.

Lemma zpad_length (w : nat) (n : Z) : String.length (zpad w n) = w.
Proof.
  revert n. induction w as [|w IH]; intros n; [reflexivity|].
  cbn [zpad]. rewrite string_app_length, IH. cbn. lia.
Qed.

Lemma substring_prefix (a b : string) :
  substring 0 (String.length a) (a +:+ b) = a.
Proof.
  induction a as [|c a IH].
  - cbn [String.length]. destruct b; reflexivity.
  - change (String c (substring 0 (String.length a) (a +:+ b)) = String c a).
    by rewrite IH.
Qed.

Lemma month_label_of_stamp (y m : Z) :
  month_label (first_of_month_stamp (y, m)) = zpad 4 y +:+ "-" +:+ zpad 2 m.
Proof.
  unfold month_label, first_of_month_stamp. cbn [fst snd].
  replace (zpad 4 y +:+ "-" +:+ zpad 2 m +:+ "-01T00:00:00Z")
    with ((zpad 4 y +:+ "-" +:+ zpad 2 m) +:+ "-01T00:00:00Z")
    by (by rewrite !PullMonthlySpec.string_app_assoc).
  replace 7%nat with (String.length (zpad 4 y +:+ "-" +:+ zpad 2 m)).
  - apply substring_prefix.
  - rewrite !string_app_length, !zpad_length. reflexivity.
Qed.

Lemma range_stamps (now_utc : datetime) :
  valid_datetime now_utc →
  (year now_utc, month now_utc) ≠ (1%Z, 1%Z) →
  previous_month_range now_utc
  = Returned
      (first_of_month_stamp (month_before (year now_utc) (month now_utc)),
       first_of_month_stamp (year now_utc, month now_utc)).
Proof.
  intros (Hy & Hm & _) Hne. unfold previous_month_range.
  destruct (PullMonthlySpec.minus_one_day_first now_utc)
    as (last & -> & Hprev & _); [lia | |].
  - destruct (decide (year now_utc = 1%Z)) as [Hy1|]; [|lia].
    destruct (decide (month now_utc = 1%Z)) as [Hm1|]; [|lia].
    exfalso. apply Hne. by rewrite Hy1, Hm1.
  - rewrite !PullMonthlySpec.isoformat_first_midnight, Hprev. reflexivity.
Qed.

Lemma records_period (start_iso end_iso : string) (targets : list Target)
    (results : list (gmap string Q)) :
  Forall (λ rec, start rec = start_iso ∧ end_ rec = end_iso)
    (concat (zip_with (λ sub rg_costs,
                         records_for (id sub) start_iso end_iso rg_costs
                           (map lower (resource_groups sub)))
               targets results)).
Proof.
  revert results. induction targets as [|sub targets IH];
    intros [|rg_costs results]; cbn [zip_with concat]; try constructor.
  apply Forall_app. split; [|apply IH].
  unfold records_for. apply Forall_forall. intros rec Hrec.
  apply list_elem_of_fmap in Hrec as (rg & -> & _). by split.
Qed.

Section Main.
Variable to_float : string → option Q.
Variable usage : nat → string → string * string → completion Response.
Variable random : nat → Q.

(** X24: the file written and its period. When [main] writes the CSV
    file at a valid clock reading, the path is [--out] when that is
    given, and [../outputs/costs_YYYY-MM.csv] with the year and month of
    the previous calendar month otherwise; every record carries the first
    midnight of the previous month as [start] and of the current month as
    [end]; and the configuration was not empty. *)
Theorem csv_named_after_previous_month (targets : list Target)
    (out : option string) (pause : Q) (maxretries : Z) (now_utc : datetime)
    (w w' : world) (out_path : string) (records : list CostRecord) :
  valid_datetime now_utc →
  (year now_utc, month now_utc) ≠ (1%Z, 1%Z) →
  main to_float usage random targets out pause maxretries now_utc w
  = Some (WroteCsv out_path records, w') →
  let previous := month_before (year now_utc) (month now_utc) in
  out_path
  = (if truthy out then or_empty out
     else "../outputs/costs_" +:+ zpad 4 previous.1 +:+ "-"
          +:+ zpad 2 previous.2 +:+ ".csv")
  ∧ Forall (λ rec, start rec = first_of_month_stamp previous
                   ∧ end_ rec
                     = first_of_month_stamp (year now_utc, month now_utc))
      records
  ∧ targets ≠ [].
Proof.
  intros Hvalid Hne. unfold main.
  destruct targets as [|sub targets]; [discriminate|].
  rewrite (range_stamps now_utc Hvalid Hne).
  destruct (main_loop _ _ _ _ _ _ _ _ _ w) as [[[recs|e] w1]|] eqn:Hrun;
    [|discriminate..].
  intros [= <- <- <-]. cbv zeta. split; [|split; [|done]].
  - destruct (truthy out); [done|].
    destruct (month_before (year now_utc) (month now_utc)) as [py pm].
    unfold default_out_path. by rewrite month_label_of_stamp.
  - apply PullMonthlySpec.main_loop_records in Hrun as (results & _ & ->).
    apply records_period.
Qed.

End Main.

Lemma csv_named_after_previous_month_witness :
  ∃ records w',
    main float_of_digits answers_at_once half config_rg1_rg2 None 1 8
      mid_march_2024 world_init
    = Some (WroteCsv "../outputs/costs_2024-02.csv" records, w')
    ∧ Forall (λ rec, start rec = "2024-02-01T00:00:00Z"
                     ∧ end_ rec = "2024-03-01T00:00:00Z") records.
Proof.
  eexists _, _. split; [reflexivity|].
  refine (proj1 (proj2 (csv_named_after_previous_month float_of_digits
                          answers_at_once half config_rg1_rg2 None 1 8
                          mid_march_2024 world_init _ _ _ _ _ eq_refl))).
  - unfold valid_datetime. vm_compute. repeat split; discriminate.
  - vm_compute. discriminate.
Defined.

End PullMonthlyMainSpec.
